(** * pqObjectNaming: object naming and name resolution of QtTesting

    A shallow embedding of [pqObjectNaming.cxx] and the properties of its
    three entry points [GetName], [GetObject] and [DumpHierarchy].

    The Qt object graph is owned by the toolkit.  The file reads it through
    [QObject*] pointers and the accessors [parent()], [children()],
    [objectName()], [metaObject()->className()], [qobject_cast] and
    [isVisible()]; here a pointer is an address and the toolkit is a record
    of these accessors.  [QString] is a string of characters, [int] an
    integer, [qCritical()] a log of messages, and the file-static
    [ErrorMessage] a component of the state threaded through every call. *)

From Stdlib Require Import String Ascii List ZArith Bool Arith Lia.
From Stdlib Require Import DecimalString DecimalPos DecimalZ.
Import ListNotations.

(** ** QString *)

Module QStr.

Definition QString := string.
Bind Scope string_scope with QString.

Definition isEmpty (s : QString) : bool :=
  match s with EmptyString => true | String _ _ => false end.

(** [QString::replace(before, after)] for one-character [before] and
    [after], as in [result.replace("/", "|")]. *)
Fixpoint replace (before after : ascii) (s : QString) : QString :=
  match s with
  | EmptyString => EmptyString
  | String c rest =>
      String (if Ascii.eqb c before then after else c) (replace before after rest)
  end.

(** [QString::split(sep)] for a one-character separator; empty parts are
    kept, and the empty string splits into one empty part. *)
Fixpoint split (sep : ascii) (s : QString) : list QString :=
  match s with
  | EmptyString => [EmptyString]
  | String c rest =>
      if Ascii.eqb c sep then EmptyString :: split sep rest
      else match split sep rest with
           | [] => [String c EmptyString]
           | part :: parts => String c part :: parts
           end
  end.

(** [QString::number(int)]: the decimal representation. *)
Definition number (n : Z) : QString := NilZero.string_of_int (Z.to_int n).

(** [s[0]], when [s] is not empty. *)
Definition front (s : QString) : option ascii :=
  match s with EmptyString => None | String c _ => Some c end.

(** [s[0] = c]. *)
Definition set_front (c : ascii) (s : QString) : QString :=
  match s with EmptyString => EmptyString | String _ rest => String c rest end.

Definition is_space (c : ascii) : bool :=
  let n := nat_of_ascii c in (n =? 32) || ((9 <=? n) && (n <=? 13)).

Fixpoint skip_spaces (s : QString) : QString :=
  match s with
  | String c rest => if is_space c then skip_spaces rest else s
  | EmptyString => EmptyString
  end.

(** The characters of [s] up to its trailing white space. *)
Fixpoint drop_trailing_spaces (s : QString) : QString :=
  match s with
  | EmptyString => EmptyString
  | String c rest =>
      match drop_trailing_spaces rest with
      | EmptyString => if is_space c then EmptyString else String c EmptyString
      | kept => String c kept
      end
  end.

Definition INT_MIN : Z := - 2 ^ 31.
Definition INT_MAX : Z := 2 ^ 31 - 1.

(** [QString::toInt()] in base ten: surrounding white space is skipped, a
    sign may come first, and the result is 0 when the text is not a number
    or the number does not fit an [int]. *)
Definition toInt (s : QString) : Z :=
  let body := drop_trailing_spaces (skip_spaces s) in
  let digits := match body with
                | String "+" rest => match rest with
                                     | String "-" _ | String "+" _ => EmptyString
                                     | _ => rest
                                     end
                | _ => body
                end in
  match NilZero.int_of_string digits with
  | Some d =>
      let z := Z.of_int d in
      if (INT_MIN <=? z)%Z && (z <=? INT_MAX)%Z then z else 0%Z
  | None => 0%Z
  end.

(** [parts.join(sep)]. *)
Fixpoint join (sep : QString) (parts : list QString) : QString :=
  match parts with
  | [] => EmptyString
  | [part] => part
  | part :: rest => (part ++ sep ++ join sep rest)%string
  end.

(** Whether the character [c] occurs in [s]. *)
Fixpoint contains (c : ascii) (s : QString) : bool :=
  match s with
  | EmptyString => false
  | String d rest => Ascii.eqb d c || contains c rest
  end.

End QStr.

Import QStr.

Definition slash : ascii := "/"%char.
Definition bar : ascii := "|"%char.
Definition newline : QString := String (ascii_of_nat 10) EmptyString.

(** ** The toolkit *)

(** A [QObject*] that is not null. *)
Definition QObjectPtr := nat.

(** What the file asks of Qt.  [findChildren] is
    [QObject::findChildren<QObject*>(name)], with [None] for the call
    without a name, which lists every descendant. *)
Record Toolkit : Type := {
  parent : QObjectPtr -> option QObjectPtr;
  children : QObjectPtr -> list QObjectPtr;
  className : QObjectPtr -> QString;
  objectName : QObjectPtr -> QString;
  isWidgetType : QObjectPtr -> bool;
  isVisible : QObjectPtr -> bool;
  isApplication : QObjectPtr -> bool;
  topLevelWidgets : list QObjectPtr;
  instance : QObjectPtr;
  findChildren : QObjectPtr -> option QString -> list QObjectPtr;
  qgetenv : QString -> QString
}.

(** [qobject_cast<QWidget*>(o)]: null when [o] is not a widget. *)
Definition qobject_cast_QWidget (tk : Toolkit) (o : QObjectPtr) : option QObjectPtr :=
  if isWidgetType tk o then Some o else None.

(** [list.contains(p)] for a pointer that may be null; a list of widgets
    holds no null pointer. *)
Definition list_contains (l : list QObjectPtr) (p : option QObjectPtr) : bool :=
  match p with
  | Some a => existsb (Nat.eqb a) l
  | None => false
  end.

(** ** Names of single objects *)

(** The sibling list of [InternalGetNameAsUnnamed]. *)
Definition siblings_of (tk : Toolkit) (Object : QObjectPtr) : list QObjectPtr :=
  match parent tk Object with
  | Some p => children tk p
  | None => topLevelWidgets tk
  end.

(** [widget && widget->isVisible()]. *)
Definition visible_widget (tk : Toolkit) (o : QObjectPtr) : bool :=
  match qobject_cast_QWidget tk o with
  | Some widget => isVisible tk widget
  | None => false
  end.

(** The counting loop of [InternalGetNameAsUnnamed], from [siblings[i]] on:
    the pair [(invisible_index, visible_index)] when the loop ends.  The
    counters are [int]s that never exceed [siblings.size()], itself an
    [int], so no addition wraps. *)
Fixpoint count_siblings (tk : Toolkit) (Object : QObjectPtr) (type : QString)
    (siblings : list QObjectPtr) (invisible_index visible_index : Z) : Z * Z :=
  match siblings with
  | [] => (invisible_index, visible_index)
  | test :: rest =>
      if Nat.eqb test Object then (invisible_index, visible_index)
      else if String.eqb type (className tk test) && isEmpty (objectName tk test) then
        if visible_widget tk test
        then count_siblings tk Object type rest invisible_index (visible_index + 1)
        else count_siblings tk Object type rest (invisible_index + 1) visible_index
      else count_siblings tk Object type rest invisible_index visible_index
  end.

(** Returns the name of an object as if it was unnamed. *)
Definition InternalGetNameAsUnnamed (tk : Toolkit) (Object : QObjectPtr) : QString :=
  let siblings := siblings_of tk Object in
  let type := className tk Object in
  let '(invisible_index, visible_index) := count_siblings tk Object type siblings 0 0 in
  let '(result, index) :=
    match qobject_cast_QWidget tk Object with
    | Some widget =>
        if isVisible tk widget
        then (number 1, visible_index)
        else (number 0, invisible_index)
    | None => (EmptyString, invisible_index)
    end in
  let result := (result ++ (type ++ number index))%string in
  replace slash bar result.

(** Returns the name of an object: the explicit name, or the name as
    unnamed; ["-app"] is appended for the application, and '/' replaced. *)
Definition InternalGetName (tk : Toolkit) (Object : QObjectPtr) : QString :=
  let result := objectName tk Object in
  let result := if isEmpty result then InternalGetNameAsUnnamed tk Object else result in
  let result := if isApplication tk Object then (result ++ "-app")%string else result in
  replace slash bar result.

(** ** Effects: the diagnostic string and the log *)

(** The messages sent to [qCritical()]. *)
Inductive Critical : Type :=
| UnnamedObject (Object : QObjectPtr)
| IncompletelyNamedObject (name : QString) (Object p : QObjectPtr)
| ParentNotTopLevel (Object p : QObjectPtr) (name : QString).

(** The state of the process that the file reads and writes: the static
    [ErrorMessage] and what was logged so far. *)
Record Process : Type := {
  ErrorMessage : QString;
  criticalLog : list Critical
}.

(** A computation on the process state; [None] when the fuel given to a
    loop over parents or to the recursion over children ran out. *)
Definition M (A : Type) : Type := Process -> option (A * Process).

Definition ret {A} (a : A) : M A := fun s => Some (a, s).

Definition bind {A B} (c : M A) (k : A -> M B) : M B :=
  fun s => match c s with
           | Some (a, s') => k a s'
           | None => None
           end.

Definition out_of_fuel {A} : M A := fun _ => None.

Declare Scope proc_scope.
Delimit Scope proc_scope with proc.
Notation "x <- c ;; k" := (bind c (fun x => k))
  (at level 61, c at next level, right associativity) : proc_scope.
Notation "c ;;; k" := (bind c (fun _ => k))
  (at level 61, right associativity) : proc_scope.
Local Open Scope proc_scope.

Definition qCritical (msg : Critical) : M unit :=
  fun s => Some (tt, {| ErrorMessage := ErrorMessage s;
                        criticalLog := criticalLog s ++ [msg] |}).

(** [ErrorMessage.clear()]. *)
Definition clear_ErrorMessage : M unit :=
  fun s => Some (tt, {| ErrorMessage := EmptyString;
                        criticalLog := criticalLog s |}).

(** [stream << text] on the [QTextStream] opened on [ErrorMessage]. *)
Definition stream (text : QString) : M unit :=
  fun s => Some (tt, {| ErrorMessage := (ErrorMessage s ++ text)%string;
                        criticalLog := criticalLog s |}).

(** [pqObjectNaming::lastErrorMessage()]. *)
Definition lastErrorMessage : M QString := fun s => Some (ErrorMessage s, s).

(** A loop [for (i = 0; i != l.size(); ++i) body(l[i], acc)]. *)
Fixpoint for_each {A} (body : QObjectPtr -> A -> M A) (l : list QObjectPtr) (acc : A) : M A :=
  match l with
  | [] => ret acc
  | x :: rest => acc' <- body x acc ;; for_each body rest acc'
  end.

(** ** GetName *)

(** The loop [for (p = Object.parent(); p; p = p->parent())] of [GetName],
    entered with [p] and the [name] composed so far. *)
Fixpoint GetName_parents (fuel : nat) (tk : Toolkit) (Object : QObjectPtr)
    (name : QString) (p : option QObjectPtr) : M QString :=
  match p with
  | None => ret name
  | Some p =>
      match fuel with
      | O => out_of_fuel
      | S fuel =>
          let parent_name := InternalGetName tk p in
          if isEmpty parent_name then
            qCritical (IncompletelyNamedObject name Object p) ;;;
            ret EmptyString
          else
            let name := (parent_name ++ "/" ++ name)%string in
            if match parent tk p with None => true | Some _ => false end
               && negb (list_contains (topLevelWidgets tk) (qobject_cast_QWidget tk p))
            then
              qCritical (ParentNotTopLevel Object p name) ;;;
              ret EmptyString
            else GetName_parents fuel tk Object name (parent tk p)
      end
  end.

Definition GetName (fuel : nat) (tk : Toolkit) (Object : QObjectPtr) : M QString :=
  let name := InternalGetName tk Object in
  if isEmpty name then
    qCritical (UnnamedObject Object) ;;;
    ret EmptyString
  else GetName_parents fuel tk Object name (parent tk Object).

(** ** GetObject *)

(** [name == objectName || alt_name == objectName] for the object [o]. *)
Definition name_matches (tk : Toolkit) (objectName : QString) (o : QObjectPtr) : bool :=
  let name := InternalGetName tk o in
  let alt_name := InternalGetNameAsUnnamed tk o in
  String.eqb name objectName || String.eqb alt_name objectName.

(** The loop over [top_level_widgets]: the first one that matches
    [names[0]]. *)
Fixpoint find_top_level (tk : Toolkit) (top_level_widgets : list QObjectPtr)
    (first : QString) : option QObjectPtr :=
  match top_level_widgets with
  | [] => None
  | object :: rest =>
      if name_matches tk first object then Some object
      else find_top_level tk rest first
  end.

(** The loop [for (k = 0; k != children.size(); ++k)] from index [k] on,
    with the current [objectName]; [result] is null during the loop, and
    the value is the [result] it ends with.  The assignment [k = 0] is
    followed by the [++k] of the loop, so the next child examined is
    [children[1]].  [None] when [fuel] iterations were not enough. *)
Fixpoint scan_children (fuel : nat) (tk : Toolkit) (children : list QObjectPtr)
    (k : nat) (objectName : QString) : option (option QObjectPtr) :=
  match fuel with
  | O => None
  | S fuel =>
      if Nat.eqb k (length children) then Some None
      else
        match nth_error children k with
        | None => None
        | Some child =>
            if name_matches tk objectName child then Some (Some child)
            else if Nat.eqb k (length children - 1)
                    && negb (isEmpty objectName)
                    && match front objectName with
                       | Some c => Ascii.eqb c "0"
                       | None => false
                       end
            then scan_children fuel tk children (0 + 1) (set_front "1" objectName)
            else scan_children fuel tk children (k + 1) objectName
        end
  end.

(** Iterations that always suffice for [scan_children] from index 0. *)
Definition scan_fuel (children : list QObjectPtr) : nat := 2 * length children + 1.

(** The loop [for (j = 1; j < names.size(); ++j)] over the segments that
    are left, with the current [result] and [lastObject]. *)
Fixpoint descend (tk : Toolkit) (names : list QString)
    (result lastObject : option QObjectPtr) : option (option QObjectPtr * option QObjectPtr) :=
  match names with
  | [] => Some (result, lastObject)
  | objectName :: rest =>
      let children := match result with
                      | Some r => children tk r
                      | None => []
                      end in
      match scan_children (scan_fuel children) tk children 0 objectName with
      | None => None
      | Some (Some child) => descend tk rest (Some child) (Some child)
      | Some None => descend tk rest None lastObject
      end
  end.

Definition PQOBJECTNAMING_MATCH_LIMIT : QString := "PQOBJECTNAMING_MATCH_LIMIT"%string.

Definition matchLimit_of (matchLimitEnv : QString) : Z :=
  if isEmpty matchLimitEnv then 20%Z else toInt matchLimitEnv.

(** The loop
    [for (cc = 0; (matchLimit <= 0 || cc < matchLimit) && cc < matches.size(); ++cc)]
    from index [cc] on, [matches] being what is left of the list; it writes
    one line per object, which begins with [opening].  The value tells
    whether the body ran. *)
Fixpoint stream_matches (fuel : nat) (tk : Toolkit) (opening : QString)
    (matchLimit cc : Z) (matches : list QObjectPtr) : M bool :=
  match matches with
  | [] => ret false
  | m :: rest =>
      if (matchLimit <=? 0)%Z || (cc <? matchLimit)%Z then
        name <- GetName fuel tk m ;;
        stream (opening ++ name ++ "`" ++ newline)%string ;;;
        stream_matches fuel tk opening matchLimit (cc + 1) rest ;;;
        ret true
      else ret false
  end.

Definition limit_hint : QString :=
  ("    Set PQOBJECTNAMING_MATCH_LIMIT environment var to a +'ve number to limit "
   ++ "entries (or 0 for unlimited)." ++ newline)%string.

(** The line written when [matchLimit > 0 && matches.size() > matchLimit]. *)
Definition stream_more (opening : QString) (matchLimit : Z) (size : nat) : M unit :=
  if (0 <? matchLimit)%Z && (matchLimit <? Z.of_nat size)%Z then
    stream (opening ++ number (Z.of_nat size - matchLimit)
            ++ " more!)" ++ newline ++ limit_hint)%string
  else ret tt.

Definition Possible_match : QString := "    Possible match:   `"%string.
Definition Possible_match_more : QString := "    Possible match: .... (and "%string.
Definition Available_widget : QString := "    Available widget: `"%string.
Definition Available_widget_more : QString := "    Available widget: .... (and "%string.

(** The part of [GetObject] after [if (result) return result;]. *)
Definition report_failure (fuel : nat) (tk : Toolkit) (Name : QString)
    (names : list QString) (lastObject : option QObjectPtr) : M unit :=
  clear_ErrorMessage ;;;
  stream newline ;;;
  stream ("Couldn't find object  `" ++ Name ++ "`" ++ newline)%string ;;;
  match lastObject with
  | Some lastObj =>
      found <- GetName fuel tk lastObj ;;
      stream ("Found up to           `" ++ found ++ "`" ++ newline)%string
  | None => ret tt
  end ;;;
  let matchLimitEnv := qgetenv tk PQOBJECTNAMING_MATCH_LIMIT in
  let matchLimit := matchLimit_of matchLimitEnv in
  match lastObject with
  | Some lastObj =>
      let matches := findChildren tk lastObj (Some (last names EmptyString)) in
      foundMatch <- stream_matches fuel tk Possible_match matchLimit 0 matches ;;
      stream_more Possible_match_more matchLimit (length matches) ;;;
      if negb foundMatch then
        let matches := findChildren tk lastObj None in
        stream_matches fuel tk Available_widget matchLimit 0 matches ;;;
        stream_more Available_widget_more matchLimit (length matches)
      else ret tt
  | None => ret tt
  end.

(** [pqObjectNaming::GetObject]: the object found, or [None] for null. *)
Definition GetObject (fuel : nat) (tk : Toolkit) (Name : QString) : M (option QObjectPtr) :=
  if isEmpty Name then ret None
  else
    let names := split slash Name in
    let app_name := InternalGetName tk (instance tk) in
    if String.eqb app_name Name then ret (Some (instance tk))
    else
      let top := find_top_level tk (topLevelWidgets tk) (hd EmptyString names) in
      match descend tk (tl names) top top with
      | None => out_of_fuel
      | Some (Some result, _) => ret (Some result)
      | Some (None, lastObject) =>
          report_failure fuel tk Name names lastObject ;;;
          ret None
      end.

(** ** DumpHierarchy *)

(** [DumpHierarchy(QObject& object, QStringList& results)]: the value is
    [results] after the call.  [depth] bounds the recursion into the
    children, [fuel] is what each [GetName] gets. *)
Fixpoint DumpHierarchy_object (depth fuel : nat) (tk : Toolkit) (object : QObjectPtr)
    (results : list QString) : M (list QString) :=
  match depth with
  | O => out_of_fuel
  | S depth =>
      name <- GetName fuel tk object ;;
      for_each (DumpHierarchy_object depth fuel tk) (children tk object) (results ++ [name])
  end.

(** [DumpHierarchy(QStringList& results)]. *)
Definition DumpHierarchy (fuel : nat) (tk : Toolkit) (results : list QString)
    : M (list QString) :=
  for_each (DumpHierarchy_object fuel fuel tk) (topLevelWidgets tk) results.

(** ** Vocabulary of the properties *)

(** [ancestors tk x l]: [l] lists the parent of [x], its parent, and so on
    up to an object without parent. *)
Inductive ancestors (tk : Toolkit) : QObjectPtr -> list QObjectPtr -> Prop :=
| ancestors_root (x : QObjectPtr) :
    parent tk x = None -> ancestors tk x []
| ancestors_step (x p : QObjectPtr) (l : list QObjectPtr) :
    parent tk x = Some p -> ancestors tk p l -> ancestors tk x (p :: l).

(** The objects from the root down to [x], when [l] are the ancestors of
    [x]. *)
Definition path_to (x : QObjectPtr) (l : list QObjectPtr) : list QObjectPtr :=
  rev l ++ [x].

(** [QApplication::topLevelWidgets().contains(qobject_cast<QWidget*>(p))]. *)
Definition registered_top_level (tk : Toolkit) (p : QObjectPtr) : bool :=
  list_contains (topLevelWidgets tk) (qobject_cast_QWidget tk p).

(** [!objectName.isEmpty() && objectName[0] == '0']. *)
Definition leading_zero (objectName : QString) : bool :=
  negb (isEmpty objectName)
  && match front objectName with
     | Some c => Ascii.eqb c "0"
     | None => false
     end.

(** Each object of [rest] is the first child of the object before it that
    matches its derived name; [prev] comes before the first. *)
Fixpoint first_matches (tk : Toolkit) (prev : QObjectPtr) (rest : list QObjectPtr) : Prop :=
  match rest with
  | [] => True
  | c :: rest' =>
      find (name_matches tk (InternalGetName tk c)) (children tk prev) = Some c
      /\ first_matches tk c rest'
  end.

(** A path from a top-level widget on which every object is the first
    match of its derived name in the list that [GetObject] scans. *)
Definition resolvable_path (tk : Toolkit) (path : list QObjectPtr) : Prop :=
  match path with
  | [] => False
  | root :: rest =>
      find (name_matches tk (InternalGetName tk root)) (topLevelWidgets tk) = Some root
      /\ first_matches tk root rest
  end.

(** The siblings listed before the first occurrence of [x]. *)
Fixpoint preceding (x : QObjectPtr) (siblings : list QObjectPtr) : list QObjectPtr :=
  match siblings with
  | [] => []
  | y :: rest => if Nat.eqb y x then [] else y :: preceding x rest
  end.

(** An unnamed object of the class [type], in the visibility class
    [visible]: the visible widgets, or everything else. *)
Definition same_kind (tk : Toolkit) (type : QString) (visible : bool)
    (o : QObjectPtr) : bool :=
  String.eqb type (className tk o) && isEmpty (objectName tk o)
  && Bool.eqb (visible_widget tk o) visible.

(** What [InternalGetNameAsUnnamed] writes before the class name. *)
Definition visibility_digit (tk : Toolkit) (o : QObjectPtr) : QString :=
  match qobject_cast_QWidget tk o with
  | Some widget => if isVisible tk widget then "1"%string else "0"%string
  | None => EmptyString
  end.

(** The process after the messages [msgs] were logged. *)
Definition logged (msgs : list Critical) (s : Process) : Process :=
  {| ErrorMessage := ErrorMessage s; criticalLog := criticalLog s ++ msgs |}.

(** The process after [text] was written to the diagnostic string and
    [msgs] were logged. *)
Definition reported (text : QString) (msgs : list Critical) (s : Process) : Process :=
  {| ErrorMessage := (ErrorMessage s ++ text)%string;
     criticalLog := criticalLog s ++ msgs |}.

(** [GetName] of [x] yields [name] and logs [msgs], whatever the state. *)
Definition yields (fuel : nat) (tk : Toolkit) (x : QObjectPtr)
    (name : QString) (msgs : list Critical) : Prop :=
  forall s, GetName fuel tk x s = Some (name, logged msgs s).

(** Pre-order of the specification: an object, then the visits of its
    children in sibling order. *)
Inductive preorder (tk : Toolkit) : QObjectPtr -> list QObjectPtr -> Prop :=
| preorder_node (x : QObjectPtr) (visit : list QObjectPtr) :
    preorder_each tk (children tk x) visit -> preorder tk x (x :: visit)
with preorder_each (tk : Toolkit) : list QObjectPtr -> list QObjectPtr -> Prop :=
| preorder_done : preorder_each tk [] []
| preorder_next (c : QObjectPtr) (cs first others : list QObjectPtr) :
    preorder tk c first -> preorder_each tk cs others ->
    preorder_each tk (c :: cs) (first ++ others).

Scheme preorder_mut := Induction for preorder Sort Prop
  with preorder_each_mut := Induction for preorder_each Sort Prop.

(** The names of the objects of [visit], taken one after the other. *)
Fixpoint GetNames (fuel : nat) (tk : Toolkit) (visit : list QObjectPtr) : M (list QString) :=
  match visit with
  | [] => ret []
  | x :: rest =>
      name <- GetName fuel tk x ;;
      names <- GetNames fuel tk rest ;;
      ret (name :: names)
  end.

(** The candidates that a limit lets through. *)
Definition capped {A} (matchLimit : Z) (matches : list A) : list A :=
  if (matchLimit <=? 0)%Z then matches else firstn (Z.to_nat matchLimit) matches.

(** The candidates that the loop lists from index [cc] on, [matches] being
    what is left of the list. *)
Definition capped_from {A} (matchLimit cc : Z) (matches : list A) : list A :=
  if (matchLimit <=? 0)%Z then matches
  else firstn (Z.to_nat (matchLimit - cc)) matches.

(** The names and logged messages that [GetName] yields for [objects]. *)
Definition yields_all (fuel : nat) (tk : Toolkit) (objects : list QObjectPtr)
    (outs : list (QString * list Critical)) : Prop :=
  Forall2 (fun o out => yields fuel tk o (fst out) (snd out)) objects outs.

(** The lines of a text, one after the other. *)
Fixpoint text_of (lines : list QString) : QString :=
  match lines with
  | [] => EmptyString
  | line :: rest => (line ++ text_of rest)%string
  end.

(** The line of one candidate. *)
Definition candidate_line (opening name : QString) : QString :=
  (opening ++ name ++ "`" ++ newline)%string.

(** The line that tells how many candidates were left out. *)
Definition more_line (opening : QString) (left_out : Z) : QString :=
  (opening ++ number left_out ++ " more!)" ++ newline ++ limit_hint)%string.

(** Whether the limit leaves candidates out. *)
Definition truncated (matchLimit : Z) (size : nat) : bool :=
  (0 <? matchLimit)%Z && (matchLimit <? Z.of_nat size)%Z.

(** What the diagnostic says of one list of candidates: a line for each
    name in [names], and the line of the left out ones when there are. *)
Definition candidates_text (opening opening_more : QString) (matchLimit : Z)
    (names : list QString) (size : nat) : QString :=
  (text_of (map (candidate_line opening) names)
   ++ if truncated matchLimit size
      then more_line opening_more (Z.of_nat size - matchLimit)
      else EmptyString)%string.

(** The first lines of the diagnostic. *)
Definition failure_header (Name found : QString) : QString :=
  (newline ++ ("Couldn't find object  `" ++ Name ++ "`" ++ newline)
   ++ ("Found up to           `" ++ found ++ "`" ++ newline))%string.

(** What one scan of the children finds, as two searches: the first child
    that matches the segment, and without one, for a segment that begins
    with '0', the first child after [children[0]] that matches the segment
    with '1' in front. *)
Definition found_among (tk : Toolkit) (children : list QObjectPtr)
    (objectName : QString) : option QObjectPtr :=
  match find (name_matches tk objectName) children with
  | Some child => Some child
  | None =>
      if leading_zero objectName
      then find (name_matches tk (set_front "1" objectName)) (tl children)
      else None
  end.

(** The [result] of [InternalGetNameAsUnnamed] before its
    [result.replace("/", "|")]: the digit, the class name and the index. *)
Definition synthesized_before_replace (tk : Toolkit) (Object : QObjectPtr) : QString :=
  let siblings := siblings_of tk Object in
  let type := className tk Object in
  let '(invisible_index, visible_index) := count_siblings tk Object type siblings 0 0 in
  let '(result, index) :=
    match qobject_cast_QWidget tk Object with
    | Some widget =>
        if isVisible tk widget
        then (number 1, visible_index)
        else (number 0, invisible_index)
    | None => (EmptyString, invisible_index)
    end in
  (result ++ (type ++ number index))%string.

(** The [result] of [InternalGetName] before any replacement: the explicit
    name, or the synthesized name as above, and ["-app"] after it for the
    application. *)
Definition name_before_replace (tk : Toolkit) (Object : QObjectPtr) : QString :=
  let result := objectName tk Object in
  let result := if isEmpty result then synthesized_before_replace tk Object else result in
  if isApplication tk Object then (result ++ "-app")%string else result.

(** What [replace("/", "|")] makes of one character. *)
Definition escaped (c : ascii) : ascii := if Ascii.eqb c "/" then "|"%char else c.

(** ** Object graphs given as tables

    A table lists the objects by address; the toolkit built from it answers
    the accessors by look-up, and [findChildren] as Qt does, with the
    descendants in pre-order. *)

Module Table.

Record QObjectData : Type := {
  d_parent : option QObjectPtr;
  d_children : list QObjectPtr;
  d_className : QString;
  d_objectName : QString;
  d_isWidgetType : bool;
  d_isVisible : bool;
  d_isApplication : bool
}.

Definition no_object : QObjectData :=
  {| d_parent := None; d_children := []; d_className := EmptyString;
     d_objectName := EmptyString; d_isWidgetType := false;
     d_isVisible := false; d_isApplication := false |}.

Definition at_address (heap : list QObjectData) (a : QObjectPtr) : QObjectData :=
  nth a heap no_object.

Fixpoint descendants (fuel : nat) (heap : list QObjectData) (o : QObjectPtr)
    : list QObjectPtr :=
  match fuel with
  | O => []
  | S fuel =>
      flat_map (fun c => c :: descendants fuel heap c) (d_children (at_address heap o))
  end.

Definition find_children (heap : list QObjectData) (o : QObjectPtr)
    (name : option QString) : list QObjectPtr :=
  filter (fun c => match name with
                   | None => true
                   | Some n => String.eqb (d_objectName (at_address heap c)) n
                   end)
         (descendants (length heap) heap o).

Definition toolkit (heap : list QObjectData) (tops : list QObjectPtr)
    (app : QObjectPtr) (matchLimitEnv : QString) : Toolkit :=
  {| parent := fun a => d_parent (at_address heap a);
     children := fun a => d_children (at_address heap a);
     className := fun a => d_className (at_address heap a);
     objectName := fun a => d_objectName (at_address heap a);
     isWidgetType := fun a => d_isWidgetType (at_address heap a);
     isVisible := fun a => d_isVisible (at_address heap a);
     isApplication := fun a => d_isApplication (at_address heap a);
     topLevelWidgets := tops;
     instance := app;
     findChildren := find_children heap;
     qgetenv := fun var => if String.eqb var PQOBJECTNAMING_MATCH_LIMIT
                           then matchLimitEnv else EmptyString |}.

Definition application : QObjectData :=
  {| d_parent := None; d_children := []; d_className := "QApplication"%string;
     d_objectName := EmptyString; d_isWidgetType := false;
     d_isVisible := false; d_isApplication := true |}.

Definition widget (p : option QObjectPtr) (cs : list QObjectPtr)
    (class name : QString) (visible : bool) : QObjectData :=
  {| d_parent := p; d_children := cs; d_className := class;
     d_objectName := name; d_isWidgetType := true;
     d_isVisible := visible; d_isApplication := false |}.

Definition object (p : option QObjectPtr) (cs : list QObjectPtr)
    (class name : QString) : QObjectData :=
  {| d_parent := p; d_children := cs; d_className := class;
     d_objectName := name; d_isWidgetType := false;
     d_isVisible := false; d_isApplication := false |}.

End Table.

Module Samples.
Import Table.
Local Open Scope string_scope.

(** A process that has not reported anything yet. *)
Definition fresh : Process := {| ErrorMessage := ""; criticalLog := [] |}.

(** A window with three unnamed invisible buttons and an unnamed timer. *)
Definition buttons : Toolkit :=
  toolkit [ application;
            widget None [2; 3; 4; 5] "QMainWindow" "win" true;
            widget (Some 1) [] "Button" "" false;
            widget (Some 1) [] "Button" "" false;
            widget (Some 1) [] "Button" "" false;
            object (Some 1) [] "QTimer" "" ]
          [1] 0 "".

(** One top-level window with two children. *)
Definition pair_window : Toolkit :=
  toolkit [ application;
            widget None [2; 3] "QMainWindow" "win" true;
            widget (Some 1) [] "QLabel" "title" true;
            widget (Some 1) [] "QPushButton" "" true ]
          [1] 0 "".

(** A window whose only child is an unnamed visible button. *)
Definition single_button : Toolkit :=
  toolkit [ application;
            widget None [2] "QMainWindow" "win" true;
            widget (Some 1) [] "QPushButton" "" true ]
          [1] 0 "".

(** A window with two children of the same explicit name. *)
Definition twins : Toolkit :=
  toolkit [ application;
            widget None [2; 3] "QMainWindow" "win" true;
            widget (Some 1) [] "QPushButton" "ok" true;
            widget (Some 1) [] "QPushButton" "ok" true ]
          [1] 0 "".

(** A window with a panel that holds five objects named [item]; the match
    limit is read from [env]. *)
Definition five_items (env : QString) : Toolkit :=
  toolkit [ application;
            widget None [2] "QMainWindow" "win" true;
            widget (Some 1) [3; 4; 5; 6; 7] "QFrame" "panel" true;
            widget (Some 2) [] "QLabel" "item" true;
            widget (Some 2) [] "QLabel" "item" true;
            widget (Some 2) [] "QLabel" "item" true;
            widget (Some 2) [] "QLabel" "item" true;
            widget (Some 2) [] "QLabel" "item" true ]
          [1] 0 env.

(** A label under a holder that is not a top-level window. *)
Definition detached : Toolkit :=
  toolkit [ application;
            object None [2] "QObject" "holder";
            widget (Some 1) [] "QLabel" "lbl" true ]
          [] 0 "".

(** The diagnostic for [win/item] in [five_items] when no candidate is
    left out. *)
Definition five_items_all_listed : QString :=
  newline
  ++ "Couldn't find object  `win/item`" ++ newline
  ++ "Found up to           `win`" ++ newline
  ++ "    Possible match:   `win/panel/item`" ++ newline
  ++ "    Possible match:   `win/panel/item`" ++ newline
  ++ "    Possible match:   `win/panel/item`" ++ newline
  ++ "    Possible match:   `win/panel/item`" ++ newline
  ++ "    Possible match:   `win/panel/item`" ++ newline.

(** The same when the limit is 3. *)
Definition five_items_three_listed : QString :=
  newline
  ++ "Couldn't find object  `win/item`" ++ newline
  ++ "Found up to           `win`" ++ newline
  ++ "    Possible match:   `win/panel/item`" ++ newline
  ++ "    Possible match:   `win/panel/item`" ++ newline
  ++ "    Possible match:   `win/panel/item`" ++ newline
  ++ "    Possible match: .... (and 2 more!)" ++ newline
  ++ limit_hint.

(** A class name with the path delimiter in it, on an unnamed widget and
    on the unnamed application. *)
Definition slashed_class : Toolkit :=
  toolkit [ {| d_parent := None; d_children := []; d_className := "my/App";
               d_objectName := ""; d_isWidgetType := false;
               d_isVisible := false; d_isApplication := true |};
            widget None [2] "QMainWindow" "main/window" true;
            widget (Some 1) [] "ns/Widget" "" true ]
          [1] 0 "".

(** An explicit name with the path delimiter in it. *)
Definition slashed : Toolkit :=
  toolkit [ application;
            widget None [2] "QMainWindow" "main/window" true;
            widget (Some 1) [] "QPushButton" "a/b" true ]
          [1] 0 "".

End Samples.

(** * Properties *)

(** ** Strings *)

Section Strings.

Lemma isEmpty_true (s : QString) : isEmpty s = true <-> s = EmptyString.
Proof. destruct s; simpl; split; congruence. Qed.

Lemma isEmpty_false (s : QString) : isEmpty s = false <-> s <> EmptyString.
Proof. destruct s; simpl; split; congruence. Qed.

Lemma isEmpty_append (a b : QString) :
  isEmpty (a ++ b)%string = isEmpty a && isEmpty b.
Proof. destruct a; reflexivity. Qed.

Lemma isEmpty_replace (before after : ascii) (s : QString) :
  isEmpty (replace before after s) = isEmpty s.
Proof. destruct s; reflexivity. Qed.

Lemma replace_append (before after : ascii) (a b : QString) :
  replace before after (a ++ b)%string
  = (replace before after a ++ replace before after b)%string.
Proof. induction a as [|c a IH]; simpl; [reflexivity | now rewrite IH]. Qed.

Lemma replace_length (before after : ascii) (s : QString) :
  String.length (replace before after s) = String.length s.
Proof. induction s as [|c s IH]; simpl; [reflexivity | now rewrite IH]. Qed.

Lemma contains_append (c : ascii) (a b : QString) :
  contains c (a ++ b)%string = contains c a || contains c b.
Proof.
  induction a as [|d a IH]; simpl; [reflexivity|].
  now rewrite IH, orb_assoc.
Qed.

Lemma replace_removes (before after : ascii) (s : QString) :
  before <> after -> contains before (replace before after s) = false.
Proof.
  intros Hne. induction s as [|c s IH]; simpl; [reflexivity|].
  rewrite IH, orb_false_r.
  destruct (Ascii.eqb_spec c before) as [->|Hc].
  - apply Ascii.eqb_neq. congruence.
  - now apply Ascii.eqb_neq.
Qed.

Lemma replace_absent (before after : ascii) (s : QString) :
  contains before s = false -> replace before after s = s.
Proof.
  induction s as [|c s IH]; simpl; [reflexivity|].
  intros H. apply orb_false_iff in H as [Hc Hs].
  now rewrite Hc, IH.
Qed.

Lemma replace_idempotent (before after : ascii) (s : QString) :
  before <> after ->
  replace before after (replace before after s) = replace before after s.
Proof. intros H. apply replace_absent. now apply replace_removes. Qed.

(** The characters of the result, one by one. *)
Lemma replace_get (before after : ascii) (s : QString) (i : nat) :
  String.get i (replace before after s)
  = option_map (fun c => if Ascii.eqb c before then after else c) (String.get i s).
Proof.
  revert i. induction s as [|c s IH]; intros i; simpl; [reflexivity|].
  destruct i; simpl; [reflexivity | apply IH].
Qed.

Lemma split_nonempty (sep : ascii) (s : QString) : split sep s <> [].
Proof.
  destruct s as [|c s]; simpl; [discriminate|].
  destruct (Ascii.eqb c sep); [discriminate|].
  destruct (split sep s); discriminate.
Qed.

Lemma split_absent (sep : ascii) (s : QString) :
  contains sep s = false -> split sep s = [s].
Proof.
  induction s as [|c s IH]; simpl; [reflexivity|].
  intros H. apply orb_false_iff in H as [Hc Hs].
  now rewrite Hc, (IH Hs).
Qed.

Lemma split_append_sep (sep : ascii) (a b : QString) :
  contains sep a = false ->
  split sep (a ++ String sep b)%string = a :: split sep b.
Proof.
  induction a as [|c a IH]; simpl.
  - intros _. now rewrite Ascii.eqb_refl.
  - intros H. apply orb_false_iff in H as [Hc Ha].
    now rewrite Hc, (IH Ha).
Qed.

Lemma split_join (sep : ascii) (parts : list QString) :
  parts <> [] ->
  Forall (fun part => contains sep part = false) parts ->
  split sep (join (String sep EmptyString) parts) = parts.
Proof.
  induction parts as [|part rest IH]; [congruence|].
  intros _ Hall. inversion Hall as [|? ? Hpart Hrest]; subst.
  destruct rest as [|next rest'].
  - simpl. now apply split_absent.
  - change (join (String sep EmptyString) (part :: next :: rest'))
      with (part ++ String sep (join (String sep EmptyString) (next :: rest')))%string.
    rewrite split_append_sep by assumption.
    f_equal. apply IH; [discriminate | assumption].
Qed.

Lemma number_nonempty (n : Z) : number n <> EmptyString.
Proof.
  unfold number. destruct (Z.to_int n) as [d|d]; simpl.
  - destruct d; simpl; discriminate.
  - discriminate.
Qed.

Lemma append_nonempty_r (a b : QString) :
  b <> EmptyString -> (a ++ b)%string <> EmptyString.
Proof. destruct a; simpl; [trivial | discriminate]. Qed.

Lemma append_nonempty_l (a b : QString) :
  a <> EmptyString -> (a ++ b)%string <> EmptyString.
Proof. destruct a; simpl; [congruence | discriminate]. Qed.

Lemma replace_nonempty (before after : ascii) (s : QString) :
  s <> EmptyString -> replace before after s <> EmptyString.
Proof. destruct s; simpl; [congruence | discriminate]. Qed.

Lemma slash_not_bar : slash <> bar.
Proof. discriminate. Qed.

End Strings.

(** ** Names of single objects *)

Section Single.

Variable tk : Toolkit.

Lemma count_siblings_preceding (Object : QObjectPtr) (type : QString)
    (siblings : list QObjectPtr) (invisible_index visible_index : Z) :
  count_siblings tk Object type siblings invisible_index visible_index
  = ((invisible_index
      + Z.of_nat (length (filter (same_kind tk type false) (preceding Object siblings))))%Z,
     (visible_index
      + Z.of_nat (length (filter (same_kind tk type true) (preceding Object siblings))))%Z).
Proof.
  revert invisible_index visible_index.
  induction siblings as [|test rest IH]; intros i v; cbn [count_siblings preceding].
  - cbn. now rewrite !Z.add_0_r.
  - destruct (Nat.eqb test Object).
    + cbn. now rewrite !Z.add_0_r.
    + cbn [filter].
      assert (Hf : same_kind tk type false test
                   = String.eqb type (className tk test) && isEmpty (objectName tk test)
                     && negb (visible_widget tk test)).
      { unfold same_kind. now destruct (visible_widget tk test). }
      assert (Ht : same_kind tk type true test
                   = String.eqb type (className tk test) && isEmpty (objectName tk test)
                     && visible_widget tk test).
      { unfold same_kind. now destruct (visible_widget tk test). }
      rewrite Hf, Ht.
      destruct (String.eqb type (className tk test) && isEmpty (objectName tk test));
        destruct (visible_widget tk test); cbn [andb negb length];
        rewrite IH, ?Nat2Z.inj_succ; f_equal; lia.
Qed.

(** The synthesized name, with the index as a count of siblings. *)
Lemma InternalGetNameAsUnnamed_count (Object : QObjectPtr) :
  InternalGetNameAsUnnamed tk Object
  = replace slash bar
      (visibility_digit tk Object ++ className tk Object
       ++ number (Z.of_nat (length
            (filter (same_kind tk (className tk Object) (visible_widget tk Object))
                    (preceding Object (siblings_of tk Object))))))%string.
Proof.
  unfold InternalGetNameAsUnnamed, visibility_digit, visible_widget.
  rewrite count_siblings_preceding. simpl.
  destruct (qobject_cast_QWidget tk Object) as [widget|]; [|reflexivity].
  destruct (isVisible tk widget); reflexivity.
Qed.

Lemma InternalGetNameAsUnnamed_nonempty (Object : QObjectPtr) :
  InternalGetNameAsUnnamed tk Object <> EmptyString.
Proof.
  rewrite InternalGetNameAsUnnamed_count.
  apply replace_nonempty, append_nonempty_r, append_nonempty_r, number_nonempty.
Qed.

Lemma InternalGetName_nonempty (Object : QObjectPtr) :
  InternalGetName tk Object <> EmptyString.
Proof.
  unfold InternalGetName. apply replace_nonempty.
  assert (H : (if isEmpty (objectName tk Object)
               then InternalGetNameAsUnnamed tk Object
               else objectName tk Object) <> EmptyString).
  { destruct (isEmpty (objectName tk Object)) eqn:E.
    - apply InternalGetNameAsUnnamed_nonempty.
    - now apply isEmpty_false. }
  destruct (isApplication tk Object); [now apply append_nonempty_l | exact H].
Qed.

Lemma InternalGetName_no_slash (Object : QObjectPtr) :
  contains slash (InternalGetName tk Object) = false.
Proof. unfold InternalGetName. apply replace_removes, slash_not_bar. Qed.

Lemma InternalGetNameAsUnnamed_no_slash (Object : QObjectPtr) :
  contains slash (InternalGetNameAsUnnamed tk Object) = false.
Proof.
  rewrite InternalGetNameAsUnnamed_count. apply replace_removes, slash_not_bar.
Qed.

End Single.

(** ** Ordinals of unnamed siblings *)

Section Ordinals.

Lemma preceding_of_filtered (f : QObjectPtr -> bool) (l : list QObjectPtr)
    (k : nat) (x : QObjectPtr) :
  NoDup l ->
  nth_error (filter f l) k = Some x ->
  length (filter f (preceding x l)) = k /\ f x = true /\ In x l.
Proof.
  intros Hnd. revert k. induction Hnd as [|y l' Hy Hnd IH]; intros k Hk.
  - destruct k; discriminate.
  - cbn [filter preceding] in *.
    destruct (f y) eqn:Hfy.
    + destruct k as [|k'].
      * injection Hk as <-. rewrite Nat.eqb_refl. cbn. auto.
      * cbn in Hk. destruct (IH _ Hk) as (Hlen & Hfx & Hin).
        destruct (Nat.eqb_spec y x) as [->|Hne]; [contradiction|].
        cbn [filter]. rewrite Hfy. cbn. auto.
    + destruct (IH _ Hk) as (Hlen & Hfx & Hin).
      destruct (Nat.eqb_spec y x) as [->|Hne]; [contradiction|].
      cbn [filter]. rewrite Hfy. cbn. auto.
Qed.

Lemma same_kind_true (tk : Toolkit) (type : QString) (visible : bool) (o : QObjectPtr) :
  same_kind tk type visible o = true ->
  className tk o = type /\ objectName tk o = EmptyString
  /\ visible_widget tk o = visible.
Proof.
  unfold same_kind. intros H.
  apply andb_true_iff in H as [H Hv]. apply andb_true_iff in H as [Ht Hn].
  apply String.eqb_eq in Ht. apply isEmpty_true in Hn.
  apply Bool.eqb_prop in Hv. auto.
Qed.

End Ordinals.

(** C2.  Under one parent, the unnamed children of one type tag and one
    visibility class (the visible widgets, or all the others) get the
    ordinals 0, 1, ..., N-1 in sibling order: the k-th of them is named by
    its visibility digit, the type tag and the number k.  Three unnamed
    invisible buttons are [0Button0], [0Button1], [0Button2]. *)
Theorem unnamed_siblings_get_consecutive_ordinals
    (tk : Toolkit) (p : QObjectPtr) (type : QString) (visible : bool)
    (k : nat) (x : QObjectPtr) :
  NoDup (children tk p) ->
  (forall c, In c (children tk p) -> parent tk c = Some p) ->
  nth_error (filter (same_kind tk type visible) (children tk p)) k = Some x ->
  InternalGetNameAsUnnamed tk x
  = replace slash bar (visibility_digit tk x ++ type ++ number (Z.of_nat k))%string
  /\ (visible = true -> visibility_digit tk x = "1"%string)
  /\ (isWidgetType tk x = true -> visible = false -> visibility_digit tk x = "0"%string).
Proof.
  intros Hnd Hparent Hk.
  destruct (preceding_of_filtered _ _ _ _ Hnd Hk) as (Hlen & Hkind & Hin).
  destruct (same_kind_true _ _ _ _ Hkind) as (Hclass & Hname & Hvis).
  split; [|split].
  - rewrite InternalGetNameAsUnnamed_count.
    unfold siblings_of. rewrite (Hparent _ Hin), Hclass, Hvis, Hlen. reflexivity.
  - intros ->. unfold visibility_digit, visible_widget in *.
    destruct (qobject_cast_QWidget tk x); [now rewrite Hvis | discriminate].
  - intros Hw ->. unfold visibility_digit, visible_widget, qobject_cast_QWidget in *.
    rewrite Hw in *. now rewrite Hvis.
Qed.

(** The three unnamed invisible buttons of the sample window. *)
Lemma unnamed_siblings_get_consecutive_ordinals_witness :
  InternalGetNameAsUnnamed Samples.buttons 2 = "0Button0"%string
  /\ InternalGetNameAsUnnamed Samples.buttons 3 = "0Button1"%string
  /\ InternalGetNameAsUnnamed Samples.buttons 4 = "0Button2"%string.
Proof.
  assert (Hnd : NoDup (children Samples.buttons 1)).
  { repeat constructor; simpl; intuition discriminate. }
  assert (Hp : forall c, In c (children Samples.buttons 1) ->
                         parent Samples.buttons c = Some 1).
  { simpl. intros c [<-|[<-|[<-|[<-|[]]]]]; reflexivity. }
  split; [|split].
  - exact (proj1 (unnamed_siblings_get_consecutive_ordinals
                    Samples.buttons 1 "Button"%string false 0 2 Hnd Hp eq_refl)).
  - exact (proj1 (unnamed_siblings_get_consecutive_ordinals
                    Samples.buttons 1 "Button"%string false 1 3 Hnd Hp eq_refl)).
  - exact (proj1 (unnamed_siblings_get_consecutive_ordinals
                    Samples.buttons 1 "Button"%string false 2 4 Hnd Hp eq_refl)).
Defined.

(** C4, as the code has it.  The synthesized name of an object is its
    visibility digit, its type tag and an index, with '/' replaced by '|'.
    The digit is '1' for a visible widget, '0' for a widget that is not
    visible, and there is none for an object that is not a widget.  The
    index counts the unnamed siblings of the same type tag and the same
    visibility class that come before the object.  An unnamed object that
    is not the application has this name as its derived name. *)
Theorem synthesized_name_form (tk : Toolkit) (Object : QObjectPtr) :
  let digit := if isWidgetType tk Object
               then if isVisible tk Object then "1"%string else "0"%string
               else EmptyString in
  let earlier := filter (same_kind tk (className tk Object) (visible_widget tk Object))
                        (preceding Object (siblings_of tk Object)) in
  InternalGetNameAsUnnamed tk Object
  = replace slash bar (digit ++ className tk Object
                       ++ number (Z.of_nat (length earlier)))%string
  /\ (objectName tk Object = EmptyString -> isApplication tk Object = false ->
      InternalGetName tk Object = InternalGetNameAsUnnamed tk Object).
Proof.
  cbv zeta. split.
  - rewrite InternalGetNameAsUnnamed_count.
    unfold visibility_digit, qobject_cast_QWidget.
    destruct (isWidgetType tk Object); reflexivity.
  - intros Hname Happ. unfold InternalGetName. rewrite Hname, Happ. cbn [isEmpty].
    rewrite InternalGetNameAsUnnamed_count.
    apply replace_idempotent, slash_not_bar.
Qed.

(** The unnamed timer and the second unnamed button of the sample window. *)
Lemma synthesized_name_form_witness :
  InternalGetNameAsUnnamed Samples.buttons 5 = "QTimer0"%string
  /\ InternalGetName Samples.buttons 5 = InternalGetNameAsUnnamed Samples.buttons 5
  /\ InternalGetNameAsUnnamed Samples.buttons 3 = "0Button1"%string.
Proof.
  split; [|split].
  - exact (proj1 (synthesized_name_form Samples.buttons 5)).
  - exact (proj2 (synthesized_name_form Samples.buttons 5) eq_refl eq_refl).
  - exact (proj1 (synthesized_name_form Samples.buttons 3)).
Defined.

(** C4 as the specification has it fails for an object that is not a
    widget: the unnamed timer of the sample window is not a visible widget,
    and its name does not begin with '0'. *)
Lemma synthesized_name_leading_digit_counterexample :
  objectName Samples.buttons 5 = EmptyString
  /\ visible_widget Samples.buttons 5 = false
  /\ InternalGetNameAsUnnamed Samples.buttons 5 = "QTimer0"%string
  /\ ~ (exists index : Z,
          InternalGetNameAsUnnamed Samples.buttons 5
          = ("0" ++ className Samples.buttons 5 ++ number index)%string).
Proof.
  repeat split.
  intros [index H]. discriminate H.
Qed.

(** ** GetName *)

Section Composition.

Variable tk : Toolkit.

Let N := InternalGetName tk.

(** The name composed by the loop over the parents [l], from [name]. *)
Let composed (l : list QObjectPtr) (name : QString) : QString :=
  fold_left (fun acc q => (N q ++ "/" ++ acc)%string) l name.

Lemma logged_nil (s : Process) : logged [] s = s.
Proof. destruct s. unfold logged. cbn. now rewrite app_nil_r. Qed.

Lemma last_cons_any (a d d' : QObjectPtr) (l : list QObjectPtr) :
  last (a :: l) d = last (a :: l) d'.
Proof.
  revert a. induction l as [|b l IH]; intros a; [reflexivity|].
  change (last (b :: l) d = last (b :: l) d'). apply IH.
Qed.

Lemma last_cons_default (q p : QObjectPtr) (l : list QObjectPtr) :
  last (q :: l) p = last l q.
Proof.
  destruct l as [|a l]; [reflexivity|].
  change (last (a :: l) p = last (a :: l) q). apply last_cons_any.
Qed.

Lemma composed_join (l : list QObjectPtr) (segs : list QString) :
  segs <> [] ->
  composed l (join "/"%string segs) = join "/"%string (map N (rev l) ++ segs).
Proof.
  revert segs. induction l as [|p l IH]; intros segs Hsegs; [reflexivity|].
  cbn [composed fold_left rev].
  change (fold_left (fun acc q => (N q ++ "/" ++ acc)%string) l
            (N p ++ "/" ++ join "/"%string segs)%string)
    with (composed l (N p ++ "/" ++ join "/"%string segs)%string).
  replace (N p ++ "/" ++ join "/"%string segs)%string with (join "/"%string (N p :: segs)).
  - rewrite IH by discriminate.
    rewrite map_app, <- app_assoc. reflexivity.
  - destruct segs; [congruence | reflexivity].
Qed.

Lemma join_nonempty (segs : list QString) :
  segs <> [] -> Forall (fun seg => seg <> EmptyString) segs ->
  join "/"%string segs <> EmptyString.
Proof.
  intros Hne Hall. destruct segs as [|a rest]; [congruence|].
  inversion Hall; subst.
  destruct rest; cbn [join]; [assumption | now apply append_nonempty_l].
Qed.

Lemma path_names_nonempty (x : QObjectPtr) (l : list QObjectPtr) :
  join "/"%string (map N (path_to x l)) <> EmptyString.
Proof.
  apply join_nonempty.
  - unfold path_to. rewrite map_app. intros H. now apply app_eq_nil in H as [_ H].
  - apply Forall_forall. intros seg Hin. apply in_map_iff in Hin as (o & <- & _).
    apply InternalGetName_nonempty.
Qed.

(** What the loop over the parents does, given fuel for all of them. *)
Lemma GetName_parents_run (p : QObjectPtr) (l : list QObjectPtr) :
  ancestors tk p l ->
  forall fuel Object name s,
    length l < fuel ->
    GetName_parents fuel tk Object name (Some p) s
    = if registered_top_level tk (last l p)
      then Some (composed (p :: l) name, s)
      else Some (EmptyString,
                 logged [ParentNotTopLevel Object (last l p) (composed (p :: l) name)] s).
Proof.
  induction 1 as [p Hroot | p q l Hq Hanc IH]; intros fuel Object name s Hfuel.
  - destruct fuel as [|fuel]; [inversion Hfuel|].
    cbn [GetName_parents length last composed fold_left].
    rewrite (proj2 (isEmpty_false _) (InternalGetName_nonempty tk p)).
    rewrite Hroot. cbn [andb].
    fold (registered_top_level tk p).
    destruct (registered_top_level tk p); cbn [negb]; [|reflexivity].
    destruct fuel; reflexivity.
  - destruct fuel as [|fuel]; [inversion Hfuel|].
    cbn [GetName_parents].
    rewrite (proj2 (isEmpty_false _) (InternalGetName_nonempty tk p)).
    rewrite Hq. cbn [andb].
    rewrite IH by (cbn in Hfuel; lia).
    rewrite last_cons_default. reflexivity.
Qed.

(** [GetName] given fuel for all the ancestors [l] of [Object]. *)
Lemma GetName_run (Object : QObjectPtr) (l : list QObjectPtr) :
  ancestors tk Object l ->
  forall fuel s,
    length l <= fuel ->
    GetName fuel tk Object s
    = match l with
      | [] => Some (N Object, s)
      | _ :: _ =>
          if registered_top_level tk (last l Object)
          then Some (join "/"%string (map N (path_to Object l)), s)
          else Some (EmptyString,
                     logged [ParentNotTopLevel Object (last l Object)
                               (join "/"%string (map N (path_to Object l)))] s)
      end.
Proof.
  intros Hanc fuel s Hfuel. unfold GetName.
  rewrite (proj2 (isEmpty_false _) (InternalGetName_nonempty tk Object)).
  assert (Hjoin : forall l', composed l' (N Object) = join "/"%string (map N (path_to Object l'))).
  { intros l'. change (N Object) with (join "/"%string [N Object]).
    rewrite composed_join by discriminate. unfold path_to.
    now rewrite map_app. }
  inversion Hanc as [x Hroot | x p l' Hp Hanc']; subst.
  - rewrite Hroot. destruct fuel; reflexivity.
  - rewrite Hp.
    rewrite (GetName_parents_run _ _ Hanc') by (cbn in Hfuel; lia).
    rewrite last_cons_default, Hjoin. reflexivity.
Qed.

(** More fuel does not change a result. *)
Lemma GetName_parents_mono (fuel fuel' : nat) (Object : QObjectPtr) :
  fuel <= fuel' ->
  forall name p s r,
    GetName_parents fuel tk Object name p s = Some r ->
    GetName_parents fuel' tk Object name p s = Some r.
Proof.
  revert fuel'. induction fuel as [|fuel IH]; intros fuel' Hle name p s r H.
  - destruct p; [discriminate|]. destruct fuel'; exact H.
  - destruct fuel' as [|fuel']; [lia|].
    destruct p as [p|]; [|exact H].
    cbn [GetName_parents] in *.
    destruct (isEmpty (InternalGetName tk p)); [exact H|].
    destruct (match parent tk p with None => true | Some _ => false end
              && negb (list_contains (topLevelWidgets tk) (qobject_cast_QWidget tk p)));
      [exact H|].
    apply IH; [lia | exact H].
Qed.

Lemma GetName_mono (fuel fuel' : nat) (Object : QObjectPtr) (s : Process)
    (r : QString * Process) :
  fuel <= fuel' ->
  GetName fuel tk Object s = Some r -> GetName fuel' tk Object s = Some r.
Proof.
  intros Hle. unfold GetName.
  destruct (isEmpty (InternalGetName tk Object)); [trivial|].
  now apply GetName_parents_mono.
Qed.

(** A result of [GetName] when the ancestors are [l], whatever the fuel. *)
Lemma GetName_result (Object : QObjectPtr) (l : list QObjectPtr)
    (fuel : nat) (s : Process) (name : QString) (s' : Process) :
  ancestors tk Object l ->
  GetName fuel tk Object s = Some (name, s') ->
  name <> EmptyString ->
  name = join "/"%string (map N (path_to Object l)) /\ s' = s
  /\ (l <> [] -> registered_top_level tk (last l Object) = true).
Proof.
  intros Hanc Hget Hname.
  apply GetName_mono with (fuel' := Nat.max fuel (length l)) in Hget; [|lia].
  rewrite (GetName_run _ _ Hanc) in Hget by lia.
  destruct l as [|p l'].
  - injection Hget as <- <-. repeat split. congruence.
  - destruct (registered_top_level tk (last (p :: l') Object)).
    + injection Hget as <- <-. repeat split.
    + injection Hget as <- <-. congruence.
Qed.

(** The result of [GetName] does not depend on the state. *)
Lemma GetName_yields (Object : QObjectPtr) (l : list QObjectPtr) (fuel : nat) :
  ancestors tk Object l -> length l <= fuel ->
  exists name msgs, yields fuel tk Object name msgs.
Proof.
  intros Hanc Hfuel.
  destruct l as [|p l'].
  - exists (N Object), []. intros s.
    rewrite (GetName_run _ _ Hanc) by assumption. now rewrite logged_nil.
  - destruct (registered_top_level tk (last (p :: l') Object)) eqn:Hreg.
    + exists (join "/"%string (map N (path_to Object (p :: l')))), []. intros s.
      rewrite (GetName_run _ _ Hanc) by assumption. now rewrite Hreg, logged_nil.
    + eexists EmptyString, [_]. intros s.
      rewrite (GetName_run _ _ Hanc) by assumption. now rewrite Hreg.
Qed.

End Composition.

(** C5.  [GetName] returns, and it returns the empty string, after one
    message to [qCritical()], exactly when the derived name of the object is
    empty, or the derived name of one of its ancestors is empty, or the
    object has ancestors and the top-most one is not among the top-level
    widgets; otherwise nothing is logged and the result is the derived
    names from the root down to the object, joined by '/'.  [ErrorMessage]
    is never touched. *)
Theorem GetName_empty_in_three_cases
    (tk : Toolkit) (fuel : nat) (Object : QObjectPtr) (l : list QObjectPtr)
    (s : Process) :
  ancestors tk Object l ->
  length l <= fuel ->
  exists name msgs,
    GetName fuel tk Object s = Some (name, logged msgs s)
    /\ (name = EmptyString <->
        InternalGetName tk Object = EmptyString
        \/ (exists p, In p l /\ InternalGetName tk p = EmptyString)
        \/ (l <> [] /\ registered_top_level tk (last l Object) = false))
    /\ (name = EmptyString -> exists msg, msgs = [msg])
    /\ (name <> EmptyString ->
        msgs = []
        /\ name = join "/"%string (map (InternalGetName tk) (path_to Object l))).
Proof.
  intros Hanc Hfuel.
  pose proof (GetName_run tk _ _ Hanc fuel s Hfuel) as Hrun.
  pose proof (path_names_nonempty tk Object l) as Hpath.
  assert (Hnone : forall P : Prop,
             InternalGetName tk Object = EmptyString
             \/ (exists p, In p l /\ InternalGetName tk p = EmptyString)
             \/ P -> P).
  { intros P [Ha | [(p & _ & Hb) | Hc]]; [| |exact Hc].
    - now apply InternalGetName_nonempty in Ha.
    - now apply InternalGetName_nonempty in Hb. }
  destruct l as [|p l'].
  - exists (InternalGetName tk Object), []. rewrite logged_nil.
    split; [exact Hrun|]. split; [|split].
    + split.
      * intros H. now apply InternalGetName_nonempty in H.
      * intros H. apply Hnone in H. now destruct H.
    + intros H. now apply InternalGetName_nonempty in H.
    + intros _. split; reflexivity.
  - destruct (registered_top_level tk (last (p :: l') Object)) eqn:Hreg.
    + exists (join "/"%string (map (InternalGetName tk) (path_to Object (p :: l')))), [].
      rewrite logged_nil. split; [exact Hrun|]. split; [|split].
      * split; [intros H; contradiction|].
        intros H. apply Hnone in H. destruct H as [_ H]. discriminate H.
      * intros H. contradiction.
      * intros _. split; reflexivity.
    + eexists EmptyString, [_]. split; [exact Hrun|]. split; [|split].
      * split; [|reflexivity]. intros _. right. right. split; [discriminate|reflexivity].
      * intros _. eexists. reflexivity.
      * intros H. congruence.
Qed.

(** The second button of the sample window, with fuel for its one ancestor. *)
Lemma GetName_empty_in_three_cases_witness :
  exists name msgs,
    GetName 1 Samples.buttons 3 Samples.fresh = Some (name, logged msgs Samples.fresh)
    /\ (name = EmptyString <->
        InternalGetName Samples.buttons 3 = EmptyString
        \/ (exists p, In p [1] /\ InternalGetName Samples.buttons p = EmptyString)
        \/ ([1] <> [] /\ registered_top_level Samples.buttons (last [1] 3) = false))
    /\ (name = EmptyString -> exists msg, msgs = [msg])
    /\ (name <> EmptyString ->
        msgs = []
        /\ name = join "/"%string
                    (map (InternalGetName Samples.buttons) (path_to 3 [1]))).
Proof.
  apply (GetName_empty_in_three_cases Samples.buttons 1 3 [1] Samples.fresh).
  - apply ancestors_step; [reflexivity|]. apply ancestors_root. reflexivity.
  - simpl. lia.
Defined.

(** A label whose top-most ancestor is not a top-level widget has no name,
    and the reason is logged. *)
Example GetName_detached :
  GetName 1 Samples.detached 2 Samples.fresh
  = Some (EmptyString,
          logged [ParentNotTopLevel 2 1 "holder/lbl"%string] Samples.fresh).
Proof. reflexivity. Qed.

Lemma InternalGetNameAsUnnamed_escapes (tk : Toolkit) (o : QObjectPtr) :
  InternalGetNameAsUnnamed tk o = replace slash bar (synthesized_before_replace tk o).
Proof.
  unfold InternalGetNameAsUnnamed, synthesized_before_replace.
  destruct (count_siblings tk o (className tk o) (siblings_of tk o) 0 0)
    as [invisible_index visible_index].
  destruct (qobject_cast_QWidget tk o) as [widget|]; [|reflexivity].
  destruct (isVisible tk widget); reflexivity.
Qed.

Lemma InternalGetName_escapes (tk : Toolkit) (o : QObjectPtr) :
  InternalGetName tk o = replace slash bar (name_before_replace tk o).
Proof.
  unfold InternalGetName, name_before_replace.
  destruct (isEmpty (objectName tk o)); [|reflexivity].
  rewrite InternalGetNameAsUnnamed_escapes.
  destruct (isApplication tk o).
  - now rewrite !replace_append, replace_idempotent by apply slash_not_bar.
  - now rewrite replace_idempotent by apply slash_not_bar.
Qed.

(** C6.  In every name segment, explicit or synthesized, with or without
    the ["-app"] of the application, every '/' has become '|' and every
    other character is kept, so no derived name holds a '/'.  So the name
    that [GetName] composes splits at '/' into the derived names of the
    objects from the root down, one segment per object, whatever the
    explicit names and the class names are. *)
Theorem slash_is_escaped_in_segments
    (tk : Toolkit) (fuel : nat) (Object : QObjectPtr) (l : list QObjectPtr)
    (s s' : Process) (name : QString) :
  ancestors tk Object l ->
  GetName fuel tk Object s = Some (name, s') ->
  name <> EmptyString ->
  Forall (fun o => contains slash (InternalGetName tk o) = false
                   /\ contains slash (InternalGetNameAsUnnamed tk o) = false)
         (path_to Object l)
  /\ Forall (fun o => objectName tk o <> EmptyString -> isApplication tk o = false ->
                      String.length (InternalGetName tk o) = String.length (objectName tk o)
                      /\ forall i,
                           String.get i (InternalGetName tk o)
                           = option_map (fun c => if Ascii.eqb c "/" then "|"%char else c)
                                        (String.get i (objectName tk o)))
            (path_to Object l)
  /\ split slash name = map (InternalGetName tk) (path_to Object l)
  /\ length (split slash name) = S (length l)
  /\ Forall (fun o =>
               String.length (InternalGetName tk o)
               = String.length (name_before_replace tk o)
               /\ (forall i,
                     String.get i (InternalGetName tk o)
                     = option_map escaped (String.get i (name_before_replace tk o)))
               /\ String.length (InternalGetNameAsUnnamed tk o)
                  = String.length (synthesized_before_replace tk o)
               /\ (forall i,
                     String.get i (InternalGetNameAsUnnamed tk o)
                     = option_map escaped
                         (String.get i (synthesized_before_replace tk o))))
            (path_to Object l).
Proof.
  intros Hanc Hget Hname.
  destruct (GetName_result tk _ _ _ _ _ _ Hanc Hget Hname) as (-> & _ & _).
  assert (Hsplit : split slash (join "/"%string (map (InternalGetName tk) (path_to Object l)))
                   = map (InternalGetName tk) (path_to Object l)).
  { apply split_join.
    - unfold path_to. rewrite map_app. intros H. now apply app_eq_nil in H as [_ H].
    - apply Forall_forall. intros seg Hin. apply in_map_iff in Hin as (o & <- & _).
      apply InternalGetName_no_slash. }
  split; [|split; [|split; [|split]]].
  - apply Forall_forall. intros o _. split.
    + apply InternalGetName_no_slash.
    + apply InternalGetNameAsUnnamed_no_slash.
  - apply Forall_forall. intros o _ Hexplicit Happ.
    unfold InternalGetName. rewrite Happ.
    rewrite (proj2 (isEmpty_false _) Hexplicit).
    split; [apply replace_length | intros i; apply replace_get].
  - exact Hsplit.
  - rewrite Hsplit, length_map. unfold path_to.
    rewrite length_app, length_rev. simpl. lia.
  - apply Forall_forall. intros o _.
    rewrite InternalGetName_escapes, InternalGetNameAsUnnamed_escapes.
    repeat split; try apply replace_length; intros i; apply replace_get.
Qed.

(** The button named [a/b] in the window named [main/window], and the
    unnamed widget of the class [ns/Widget]: two segments each, and '|'
    where the names had '/'. *)
Lemma slash_is_escaped_in_segments_witness :
  (GetName 1 Samples.slashed 2 Samples.fresh
   = Some ("main|window/a|b"%string, Samples.fresh)
   /\ split slash "main|window/a|b"%string = ["main|window"%string; "a|b"%string]
   /\ length (split slash "main|window/a|b"%string) = 2)
  /\ (GetName 1 Samples.slashed_class 2 Samples.fresh
      = Some ("main|window/1ns|Widget0"%string, Samples.fresh)
      /\ split slash "main|window/1ns|Widget0"%string
         = ["main|window"%string; "1ns|Widget0"%string]
      /\ synthesized_before_replace Samples.slashed_class 2 = "1ns/Widget0"%string
      /\ String.get 3 (InternalGetNameAsUnnamed Samples.slashed_class 2)
         = option_map escaped (Some "/"%char)).
Proof.
  split.
  - assert (Hanc : ancestors Samples.slashed 2 [1]).
    { apply ancestors_step; [reflexivity|]. apply ancestors_root. reflexivity. }
    assert (Hget : GetName 1 Samples.slashed 2 Samples.fresh
                   = Some ("main|window/a|b"%string, Samples.fresh)) by reflexivity.
    assert (Hname : "main|window/a|b"%string <> EmptyString) by discriminate.
    pose proof (slash_is_escaped_in_segments
                  Samples.slashed 1 2 [1] Samples.fresh Samples.fresh
                  "main|window/a|b"%string Hanc Hget Hname) as (_ & _ & Hsplit & Hlen & _).
    split; [exact Hget|]. split; [exact Hsplit | exact Hlen].
  - assert (Hanc : ancestors Samples.slashed_class 2 [1]).
    { apply ancestors_step; [reflexivity|]. apply ancestors_root. reflexivity. }
    assert (Hget : GetName 1 Samples.slashed_class 2 Samples.fresh
                   = Some ("main|window/1ns|Widget0"%string, Samples.fresh))
      by reflexivity.
    assert (Hname : "main|window/1ns|Widget0"%string <> EmptyString) by discriminate.
    pose proof (slash_is_escaped_in_segments
                  Samples.slashed_class 1 2 [1] Samples.fresh Samples.fresh
                  "main|window/1ns|Widget0"%string Hanc Hget Hname)
      as (_ & _ & Hsplit & _ & Hall).
    split; [exact Hget|]. split; [exact Hsplit|]. split; [reflexivity|].
    apply Forall_forall with (x := 2) in Hall; [|simpl; tauto].
    exact (proj2 (proj2 (proj2 Hall)) 3).
Defined.

(** The unnamed application of the class [my/App]. *)
Example InternalGetName_application_with_slash :
  name_before_replace Samples.slashed_class 0 = "my/App0-app"%string
  /\ InternalGetName Samples.slashed_class 0 = "my|App0-app"%string.
Proof. split; reflexivity. Qed.

(** ** DumpHierarchy *)

Section Dump.

Variable tk : Toolkit.

Lemma GetNames_app (fuel : nat) (first others : list QObjectPtr) (s : Process) :
  GetNames fuel tk (first ++ others) s
  = match GetNames fuel tk first s with
    | Some (names1, s1) =>
        match GetNames fuel tk others s1 with
        | Some (names2, s2) => Some (names1 ++ names2, s2)
        | None => None
        end
    | None => None
    end.
Proof.
  revert s. induction first as [|x first IH]; intros s; cbn [GetNames app].
  - unfold ret. destruct (GetNames fuel tk others s) as [[names2 s2]|]; reflexivity.
  - unfold bind, ret.
    destruct (GetName fuel tk x s) as [[name s0]|]; [|reflexivity].
    rewrite IH.
    destruct (GetNames fuel tk first s0) as [[names1 s1]|]; [|reflexivity].
    destruct (GetNames fuel tk others s1) as [[names2 s2]|]; reflexivity.
Qed.

(** The results after the traversal of [visit]: what was there, then the
    names of the visited objects. *)
Let appended (fuel : nat) (visit : list QObjectPtr) (results : list QString)
    : M (list QString) :=
  names <- GetNames fuel tk visit ;; ret (results ++ names).

Lemma DumpHierarchy_object_preorder (x : QObjectPtr) (visit : list QObjectPtr) :
  preorder tk x visit ->
  exists depth0, forall depth, depth0 <= depth ->
    forall fuel results s,
      DumpHierarchy_object depth fuel tk x results s = appended fuel visit results s.
Proof.
  intros H.
  induction H using preorder_mut with
    (P0 := fun cs visit _ =>
       exists depth0, forall depth, depth0 <= depth ->
         forall fuel results s,
           for_each (DumpHierarchy_object depth fuel tk) cs results s
           = appended fuel visit results s).
  - destruct IHpreorder as [d0 IH]. exists (S d0).
    intros depth Hd fuel results s.
    destruct depth as [|depth]; [lia|].
    cbn [DumpHierarchy_object]. unfold appended. cbn [GetNames].
    unfold bind, ret.
    destruct (GetName fuel tk x s) as [[name s1]|]; [|reflexivity].
    rewrite IH by lia. unfold appended, bind, ret.
    destruct (GetNames fuel tk visit s1) as [[names s2]|]; [|reflexivity].
    now rewrite <- app_assoc.
  - exists 0. intros depth _ fuel results s.
    unfold appended, bind, ret. cbn. now rewrite app_nil_r.
  - destruct IHpreorder as [d1 IH1]. destruct IHpreorder0 as [d2 IH2].
    exists (Nat.max d1 d2). intros depth Hd fuel results s.
    cbn [for_each]. unfold bind at 1.
    rewrite IH1 by lia. unfold appended, bind, ret.
    rewrite GetNames_app.
    destruct (GetNames fuel tk first s) as [[names1 s1]|]; [|reflexivity].
    rewrite IH2 by lia. unfold appended, bind, ret.
    destruct (GetNames fuel tk others s1) as [[names2 s2]|]; [|reflexivity].
    now rewrite app_assoc.
Qed.

Lemma for_each_preorder (cs visit : list QObjectPtr) :
  preorder_each tk cs visit ->
  exists depth0, forall depth, depth0 <= depth ->
    forall fuel results s,
      for_each (DumpHierarchy_object depth fuel tk) cs results s
      = appended fuel visit results s.
Proof.
  induction 1 as [|c cs first others Hc Hcs [d2 IH2]].
  - exists 0. intros depth _ fuel results s.
    unfold appended, bind, ret. cbn. now rewrite app_nil_r.
  - destruct (DumpHierarchy_object_preorder _ _ Hc) as [d1 IH1].
    exists (Nat.max d1 d2). intros depth Hd fuel results s.
    cbn [for_each]. unfold bind at 1.
    rewrite IH1 by lia. unfold appended, bind, ret.
    rewrite GetNames_app.
    destruct (GetNames fuel tk first s) as [[names1 s1]|]; [|reflexivity].
    rewrite IH2 by lia. unfold appended, bind, ret.
    destruct (GetNames fuel tk others s1) as [[names2 s2]|]; [|reflexivity].
    now rewrite app_assoc.
Qed.

(** With enough fuel every visited object gets its name. *)
Lemma GetNames_returns (visit : list QObjectPtr) :
  Forall (fun y => exists l, ancestors tk y l) visit ->
  exists fuel0, forall fuel, fuel0 <= fuel ->
    forall s, exists names s',
      GetNames fuel tk visit s = Some (names, s') /\ length names = length visit.
Proof.
  induction 1 as [|y visit [l Hanc] _ [f0 IH]].
  - exists 0. intros fuel _ s. exists [], s. split; reflexivity.
  - exists (Nat.max (length l) f0). intros fuel Hfuel s.
    destruct (GetName_yields tk y l fuel Hanc) as (name & msgs & Hy); [lia|].
    destruct (IH fuel ltac:(lia) (logged msgs s)) as (names & s' & Hnames & Hlen).
    exists (name :: names), s'. cbn [GetNames]. unfold bind.
    rewrite Hy, Hnames. split; [reflexivity | cbn; now rewrite Hlen].
Qed.

End Dump.

(** C7.  [DumpHierarchy] appends the names of the top-level widgets and of
    all their descendants in pre-order: an object before its children, the
    children in sibling order, nothing left out.  With one top-level window
    that has two children it appends three names, the name of the window
    first. *)
Theorem DumpHierarchy_visits_in_preorder (tk : Toolkit) :
  (forall visit,
     preorder_each tk (topLevelWidgets tk) visit ->
     Forall (fun y => exists l, ancestors tk y l) visit ->
     exists fuel0, forall fuel, fuel0 <= fuel ->
       forall results s, exists names s',
         DumpHierarchy fuel tk results s = Some (results ++ names, s')
         /\ GetNames fuel tk visit s = Some (names, s')
         /\ length names = length visit)
  /\ (forall w a b,
        topLevelWidgets tk = [w] -> children tk w = [a; b] ->
        children tk a = [] -> children tk b = [] ->
        parent tk w = None -> parent tk a = Some w -> parent tk b = Some w ->
        forall fuel results s, 2 <= fuel ->
          exists name_a name_b s',
            DumpHierarchy fuel tk results s
            = Some (results ++ [InternalGetName tk w; name_a; name_b], s')).
Proof.
  split.
  - intros visit Hvisit Hanc.
    destruct (for_each_preorder tk _ _ Hvisit) as [d0 Hdump].
    destruct (GetNames_returns tk visit Hanc) as [f0 Hnames].
    exists (Nat.max d0 f0). intros fuel Hfuel results s.
    destruct (Hnames fuel ltac:(lia) s) as (names & s' & Hget & Hlen).
    exists names, s'. unfold DumpHierarchy.
    rewrite Hdump by lia. unfold bind, ret. rewrite Hget. auto.
  - intros w a b Htops Hw Ha Hb Hpw Hpa Hpb fuel results s Hfuel.
    assert (Hanc_w : ancestors tk w []) by now apply ancestors_root.
    assert (Hanc_a : ancestors tk a [w]) by (eapply ancestors_step; eassumption).
    assert (Hanc_b : ancestors tk b [w]) by (eapply ancestors_step; eassumption).
    destruct (GetName_yields tk a [w] fuel Hanc_a) as (name_a & msgs_a & Hya);
      [cbn; lia|].
    destruct (GetName_yields tk b [w] fuel Hanc_b) as (name_b & msgs_b & Hyb);
      [cbn; lia|].
    exists name_a, name_b, (logged msgs_b (logged msgs_a s)).
    destruct fuel as [|[|fuel]]; [lia | lia |].
    unfold DumpHierarchy. rewrite Htops.
    cbn [for_each DumpHierarchy_object]. unfold bind, ret.
    rewrite (GetName_run tk w [] Hanc_w) by (cbn; lia).
    rewrite Hw. cbn [for_each DumpHierarchy_object]. unfold bind, ret.
    rewrite Hya, Ha. cbn [for_each]. unfold ret. cbn beta iota.
    rewrite Hyb, Hb. cbn [for_each]. unfold ret. cbn beta iota.
    now rewrite <- !app_assoc.
Qed.

(** The sample window with a label and a button. *)
Lemma DumpHierarchy_visits_in_preorder_witness :
  exists name_a name_b s',
    DumpHierarchy 2 Samples.pair_window [] Samples.fresh
    = Some ([] ++ [InternalGetName Samples.pair_window 1; name_a; name_b], s').
Proof.
  apply (proj2 (DumpHierarchy_visits_in_preorder Samples.pair_window) 1 2 3);
    solve [reflexivity | lia].
Defined.

Example DumpHierarchy_pair_window :
  DumpHierarchy 2 Samples.pair_window [] Samples.fresh
  = Some (["win"; "win/title"; "win/1QPushButton0"]%string, Samples.fresh).
Proof. reflexivity. Qed.

(** ** GetObject: the scans *)

Section Scans.

Variable tk : Toolkit.

Lemma find_top_level_find (tops : list QObjectPtr) (first : QString) :
  find_top_level tk tops first = find (name_matches tk first) tops.
Proof.
  induction tops as [|object rest IH]; cbn; [reflexivity|].
  now rewrite IH.
Qed.

Lemma find_first (f : QObjectPtr -> bool) (l : list QObjectPtr) (c : QObjectPtr) :
  find f l = Some c ->
  exists pre post, l = pre ++ c :: post /\ f c = true
                   /\ forall e, In e pre -> f e = false.
Proof.
  induction l as [|y l IH]; cbn; [discriminate|].
  destruct (f y) eqn:Hy.
  - intros [= <-]. exists [], l. repeat split; [assumption | intros e []].
  - intros H. destruct (IH H) as (pre & post & -> & Hc & Hpre).
    exists (y :: pre), post. repeat split; [assumption|].
    intros e [<-|He]; auto.
Qed.

Lemma skipn_nth_error (l : list QObjectPtr) (k : nat) (x : QObjectPtr) :
  nth_error l k = Some x -> skipn k l = x :: skipn (S k) l.
Proof.
  revert k. induction l as [|y l IH]; intros [|k]; cbn; try discriminate.
  - now intros [= ->].
  - intros H. now rewrite (IH _ H).
Qed.

Lemma leading_zero_set_front (objectName : QString) :
  leading_zero (set_front "1" objectName) = false.
Proof. destruct objectName; reflexivity. Qed.

(** One iteration of the loop, at an index inside the list. *)
Lemma scan_children_step (fuel : nat) (children : list QObjectPtr) (k : nat)
    (objectName : QString) (child : QObjectPtr) :
  nth_error children k = Some child ->
  scan_children (S fuel) tk children k objectName
  = if name_matches tk objectName child then Some (Some child)
    else if Nat.eqb k (length children - 1) && leading_zero objectName
         then scan_children fuel tk children 1 (set_front "1" objectName)
         else scan_children fuel tk children (k + 1) objectName.
Proof.
  intros Hk. cbn [scan_children].
  assert (Hlt : k < length children) by (apply nth_error_Some; congruence).
  destruct (Nat.eqb_spec k (length children)) as [->|_]; [lia|].
  rewrite Hk. unfold leading_zero. now rewrite andb_assoc.
Qed.

(** A scan that cannot retry: the first match from index [k] on. *)
Lemma scan_children_plain (children : list QObjectPtr) (objectName : QString) :
  leading_zero objectName = false ->
  forall n k fuel,
    n = length children - k -> k <= length children -> n < fuel ->
    scan_children fuel tk children k objectName
    = Some (find (name_matches tk objectName) (skipn k children)).
Proof.
  intros Hzero. induction n as [|n IH]; intros k fuel Hn Hk Hfuel;
    (destruct fuel as [|fuel]; [lia|]).
  - assert (k = length children) by lia. subst k.
    cbn [scan_children]. rewrite Nat.eqb_refl, skipn_all. reflexivity.
  - destruct (nth_error children k) as [child|] eqn:Hchild.
    2:{ apply nth_error_None in Hchild. lia. }
    rewrite (scan_children_step _ _ _ _ _ Hchild), (skipn_nth_error _ _ _ Hchild).
    cbn [find]. destruct (name_matches tk objectName child); [reflexivity|].
    rewrite Hzero, andb_false_r, Nat.add_1_r.
    apply IH; lia.
Qed.

(** A scan from index [k] inside the list: the first match from [k] on,
    and without one, for a segment that begins with '0', the first match
    of the segment with '1' from index 1 on. *)
Lemma scan_children_retry (children : list QObjectPtr) (objectName : QString) :
  leading_zero objectName = true ->
  forall n k fuel,
    S n = length children - k -> n + length children < fuel ->
    scan_children fuel tk children k objectName
    = match find (name_matches tk objectName) (skipn k children) with
      | Some child => Some (Some child)
      | None => Some (find (name_matches tk (set_front "1" objectName))
                           (skipn 1 children))
      end.
Proof.
  intros Hzero. induction n as [|n IH]; intros k fuel Hn Hfuel;
    (destruct fuel as [|fuel]; [lia|]);
    (destruct (nth_error children k) as [child|] eqn:Hchild;
     [|apply nth_error_None in Hchild; lia]);
    rewrite (scan_children_step _ _ _ _ _ Hchild), (skipn_nth_error _ _ _ Hchild);
    cbn [find]; (destruct (name_matches tk objectName child); [reflexivity|]);
    rewrite Hzero, andb_true_r.
  - replace (k =? length children - 1) with true by (symmetry; apply Nat.eqb_eq; lia).
    rewrite skipn_all2 by lia. cbn [find].
    apply (scan_children_plain _ _ (leading_zero_set_front objectName)
             (length children - 1)); lia.
  - replace (k =? length children - 1) with false by (symmetry; apply Nat.eqb_neq; lia).
    rewrite Nat.add_1_r. apply IH; lia.
Qed.

(** The whole scan of the children for one segment.  On the retry the
    child at index 0 is not examined again. *)
Lemma scan_children_two_passes (children : list QObjectPtr) (objectName : QString) :
  scan_children (scan_fuel children) tk children 0 objectName
  = match find (name_matches tk objectName) children with
    | Some child => Some (Some child)
    | None =>
        if leading_zero objectName
        then Some (find (name_matches tk (set_front "1" objectName)) (tl children))
        else Some None
    end.
Proof.
  unfold scan_fuel.
  destruct (leading_zero objectName) eqn:Hzero.
  - destruct children as [|c rest].
    + reflexivity.
    + rewrite (scan_children_retry _ _ Hzero (length rest) 0) by (cbn; lia).
      reflexivity.
  - rewrite (scan_children_plain _ _ Hzero (length children) 0) by lia.
    cbn [skipn]. destruct (find (name_matches tk objectName) children); reflexivity.
Qed.

(** The scan always ends. *)
Lemma scan_children_returns (children : list QObjectPtr) (objectName : QString) :
  exists result,
    scan_children (scan_fuel children) tk children 0 objectName = Some result.
Proof.
  rewrite scan_children_two_passes.
  destruct (find (name_matches tk objectName) children); [eauto|].
  destruct (leading_zero objectName); eauto.
Qed.

Lemma descend_returns (names : list QString) (result lastObject : option QObjectPtr) :
  exists final, descend tk names result lastObject = Some final.
Proof.
  revert result lastObject.
  induction names as [|objectName rest IH]; intros result lastObject; cbn [descend].
  - eauto.
  - destruct (scan_children_returns
                (match result with Some r => children tk r | None => [] end)
                objectName) as [[child|] ->]; apply IH.
Qed.

(** Down a path of first matches the descent ends at the last object. *)
Lemma descend_first_matches (rest : list QObjectPtr) (prev : QObjectPtr) :
  first_matches tk prev rest ->
  descend tk (map (InternalGetName tk) rest) (Some prev) (Some prev)
  = Some (Some (last rest prev), Some (last rest prev)).
Proof.
  revert prev. induction rest as [|c rest IH]; intros prev Hfirst.
  - reflexivity.
  - destruct Hfirst as [Hc Hrest].
    cbn [map descend]. rewrite scan_children_two_passes, Hc.
    rewrite (IH _ Hrest). now rewrite last_cons_default.
Qed.

End Scans.

(** ** GetObject *)

(** C3, and the input where the code departs from it.  The scan for a
    segment takes the first child that matches; without one, and for a
    segment that begins with '0', it puts '1' in front and scans again, but
    from [children[1]] on: [k = 0] is followed by the [++k] of the loop, so
    the first child is not examined again.  There is no replacement of '1'
    by '0'.  The window of [single_button] has one child, an unnamed button
    that is visible, named [win/1QPushButton0]; asked for
    [win/0QPushButton0], [GetObject] returns null.  With a child before it,
    as in [pair_window], the same button is found by the retry.  An
    invisible button is not found under a name with '1'. *)
Theorem retry_skips_first_child :
  (forall tk children objectName,
     scan_children (scan_fuel children) tk children 0 objectName
     = match find (name_matches tk objectName) children with
       | Some child => Some (Some child)
       | None =>
           if leading_zero objectName
           then Some (find (name_matches tk (set_front "1" objectName)) (tl children))
           else Some None
       end)
  /\ GetName 1 Samples.single_button 2 Samples.fresh
     = Some ("win/1QPushButton0"%string, Samples.fresh)
  /\ scan_children (scan_fuel [2]) Samples.single_button [2] 0 "0QPushButton0"%string
     = Some None
  /\ option_map fst (GetObject 1 Samples.single_button "win/0QPushButton0"%string Samples.fresh)
     = Some None
  /\ GetObject 1 Samples.pair_window "win/0QPushButton0"%string Samples.fresh
     = Some (Some 3, Samples.fresh)
  /\ option_map fst (GetObject 1 Samples.buttons "win/1Button0"%string Samples.fresh)
     = Some None.
Proof.
  split; [exact scan_children_two_passes|].
  repeat split; reflexivity.
Qed.

(** C9.  A call of [GetObject] that returns an object leaves the process
    state as it was, so [lastErrorMessage] returns the same string before
    and after; when the diagnostic string has changed, the call returned
    null. *)
Theorem GetObject_success_keeps_ErrorMessage
    (fuel : nat) (tk : Toolkit) (Name : QString) (s s' : Process)
    (result : option QObjectPtr) :
  GetObject fuel tk Name s = Some (result, s') ->
  (result <> None ->
   s' = s
   /\ option_map fst (lastErrorMessage s') = option_map fst (lastErrorMessage s))
  /\ (ErrorMessage s' <> ErrorMessage s -> result = None).
Proof.
  intros Hget.
  assert (Hframe : result <> None -> s' = s).
  { intros Hfound. unfold GetObject in Hget.
    destruct (isEmpty Name).
    { injection Hget as <- <-. congruence. }
    destruct (String.eqb (InternalGetName tk (instance tk)) Name).
    { now injection Hget as <- <-. }
    destruct (descend tk _ _ _) as [[[found|] lastObject]|]; [| |discriminate].
    - now injection Hget as <- <-.
    - unfold bind, ret in Hget.
      destruct (report_failure fuel tk Name _ lastObject s) as [[[] s1]|];
        [|discriminate].
      injection Hget as <- <-. congruence. }
  split.
  - intros Hfound. rewrite (Hframe Hfound). split; reflexivity.
  - intros Hchanged. destruct result as [r|]; [|reflexivity].
    exfalso. apply Hchanged. now rewrite Hframe.
Qed.

(** The label of the sample window is found, and nothing is reported. *)
Lemma GetObject_success_keeps_ErrorMessage_witness :
  (Some 2 <> None ->
   Samples.fresh = Samples.fresh
   /\ option_map fst (lastErrorMessage Samples.fresh)
      = option_map fst (lastErrorMessage Samples.fresh))
  /\ (ErrorMessage Samples.fresh <> ErrorMessage Samples.fresh -> Some 2 = None).
Proof.
  apply (GetObject_success_keeps_ErrorMessage
           1 Samples.pair_window "win/title"%string Samples.fresh Samples.fresh (Some 2)).
  reflexivity.
Defined.

(** C1 as the specification has it fails when two siblings have the same
    derived name: both buttons of [twins] are named [win/ok], their parent
    resolves, and the name resolves to the first button, not the second. *)
Lemma round_trip_counterexample :
  ancestors Samples.twins 3 [1]
  /\ GetObject 1 Samples.twins "win"%string Samples.fresh = Some (Some 1, Samples.fresh)
  /\ GetName 1 Samples.twins 3 Samples.fresh = Some ("win/ok"%string, Samples.fresh)
  /\ GetObject 1 Samples.twins "win/ok"%string Samples.fresh = Some (Some 2, Samples.fresh)
  /\ GetObject 1 Samples.twins "win/ok"%string Samples.fresh <> Some (Some 3, Samples.fresh).
Proof.
  split; [|repeat split; try reflexivity; discriminate].
  apply ancestors_step; [reflexivity|]. apply ancestors_root. reflexivity.
Qed.

Section RoundTrip.

Variable tk : Toolkit.

Lemma last_path_to (x d : QObjectPtr) (l : list QObjectPtr) :
  last (path_to x l) d = x.
Proof. unfold path_to. apply last_last. Qed.

Lemma split_path_names (x : QObjectPtr) (l : list QObjectPtr) :
  split slash (join "/"%string (map (InternalGetName tk) (path_to x l)))
  = map (InternalGetName tk) (path_to x l).
Proof.
  apply split_join.
  - unfold path_to. rewrite map_app. intros H. now apply app_eq_nil in H as [_ H].
  - apply Forall_forall. intros seg Hin. apply in_map_iff in Hin as (o & <- & _).
    apply InternalGetName_no_slash.
Qed.

(** Resolution of a name composed along a resolvable path. *)
Lemma GetObject_resolvable_path (fuel : nat) (x : QObjectPtr) (l : list QObjectPtr)
    (s : Process) :
  let name := join "/"%string (map (InternalGetName tk) (path_to x l)) in
  InternalGetName tk (instance tk) <> name ->
  resolvable_path tk (path_to x l) ->
  GetObject fuel tk name s = Some (Some x, s).
Proof.
  intros name Happ Hpath. unfold GetObject.
  rewrite (proj2 (isEmpty_false name) (path_names_nonempty tk x l)).
  rewrite (proj2 (String.eqb_neq _ _) Happ).
  subst name. rewrite split_path_names.
  pose proof (last_path_to x x l) as Hlast.
  destruct (path_to x l) as [|root rest]; [contradiction|].
  destruct Hpath as [Hroot Hrest].
  cbn [map hd tl]. rewrite find_top_level_find, Hroot.
  rewrite (descend_first_matches tk _ _ Hrest).
  rewrite last_cons_default in Hlast. now rewrite Hlast.
Qed.

End RoundTrip.

(** C1, as the code has it.  When [GetName] gives [x] a name that is not
    empty, and every object on the path from the top-level widget down to
    [x] is the first object, in the list that [GetObject] scans at that
    level, whose derived name or name as unnamed equals its segment, then
    [GetObject] of that name returns [x], in the unchanged object graph and
    with any fuel.  A name equal to that of the application resolves to the
    application, so then [x] has to be the application. *)
Theorem GetObject_GetName_round_trip
    (tk : Toolkit) (fuel fuel' : nat) (x : QObjectPtr) (l : list QObjectPtr)
    (s s' : Process) (name : QString) :
  ancestors tk x l ->
  GetName fuel tk x s = Some (name, s') ->
  name <> EmptyString ->
  (InternalGetName tk (instance tk) = name -> x = instance tk) ->
  (InternalGetName tk (instance tk) <> name -> resolvable_path tk (path_to x l)) ->
  s' = s /\ GetObject fuel' tk name s' = Some (Some x, s').
Proof.
  intros Hanc Hget Hname Happ Hpath.
  destruct (GetName_result tk _ _ _ _ _ _ Hanc Hget Hname) as (Heq & -> & _).
  split; [reflexivity|].
  destruct (String.eqb_spec (InternalGetName tk (instance tk)) name) as [Hsame|Hdiff].
  - unfold GetObject.
    rewrite (proj2 (isEmpty_false name) Hname).
    rewrite (proj2 (String.eqb_eq _ _) Hsame).
    now rewrite (Happ Hsame).
  - subst name. now apply GetObject_resolvable_path; [|apply Hpath].
Qed.

(** The unnamed button of the sample window. *)
Lemma GetObject_GetName_round_trip_witness :
  Samples.fresh = Samples.fresh
  /\ GetObject 1 Samples.pair_window "win/1QPushButton0"%string Samples.fresh
     = Some (Some 3, Samples.fresh).
Proof.
  apply (GetObject_GetName_round_trip
           Samples.pair_window 1 1 3 [1] Samples.fresh Samples.fresh
           "win/1QPushButton0"%string).
  - apply ancestors_step; [reflexivity|]. apply ancestors_root. reflexivity.
  - reflexivity.
  - discriminate.
  - intros H. discriminate H.
  - intros _. simpl. split; [reflexivity|]. split; [reflexivity | exact I].
Defined.

(** ** The diagnostic of a failed resolution *)

Section Diagnostic.

Variable tk : Toolkit.
Variable fuel : nat.

Lemma string_append_empty_r (a : QString) : (a ++ ""%string)%string = a.
Proof. induction a as [|c a IH]; cbn; [reflexivity | now rewrite IH]. Qed.

Lemma string_append_assoc (a b c : QString) :
  ((a ++ b) ++ c)%string = (a ++ (b ++ c))%string.
Proof. induction a as [|d a IH]; cbn; [reflexivity | now rewrite IH]. Qed.

Lemma reported_nil (s : Process) : reported EmptyString [] s = s.
Proof.
  destruct s. unfold reported. cbn.
  now rewrite string_append_empty_r, app_nil_r.
Qed.

Lemma reported_reported (t1 t2 : QString) (m1 m2 : list Critical) (s : Process) :
  reported t2 m2 (reported t1 m1 s) = reported (t1 ++ t2) (m1 ++ m2) s.
Proof.
  unfold reported. cbn. now rewrite string_append_assoc, app_assoc.
Qed.

Lemma logged_reported (msgs : list Critical) (s : Process) :
  logged msgs s = reported EmptyString msgs s.
Proof. unfold logged, reported. now rewrite string_append_empty_r. Qed.

Lemma stream_run (text : QString) (s : Process) :
  stream text s = Some (tt, reported text [] s).
Proof. unfold stream, reported. now rewrite app_nil_r. Qed.

Lemma bind_Some {A B} (c : M A) (k : A -> M B) (s s1 : Process) (a : A) :
  c s = Some (a, s1) -> bind c k s = k a s1.
Proof. unfold bind. now intros ->. Qed.

(** Runs the first computation of a sequence, given its result. *)
Tactic Notation "run_with" uconstr(H) :=
  rewrite (bind_Some _ _ _ _ _ H); cbn beta.

Lemma capped_from_nil {A} (matchLimit cc : Z) :
  capped_from matchLimit cc (@nil A) = [].
Proof. unfold capped_from. destruct (matchLimit <=? 0)%Z; [reflexivity | apply firstn_nil]. Qed.

Lemma capped_from_cons {A} (matchLimit cc : Z) (m : A) (rest : list A) :
  (0 <= cc)%Z ->
  capped_from matchLimit cc (m :: rest)
  = if (matchLimit <=? 0)%Z || (cc <? matchLimit)%Z
    then m :: capped_from matchLimit (cc + 1) rest
    else [].
Proof.
  intros Hcc. unfold capped_from.
  destruct (Z.leb_spec matchLimit 0) as [Hle|Hgt]; cbn [orb]; [reflexivity|].
  destruct (Z.ltb_spec cc matchLimit) as [Hlt|Hge].
  - replace (Z.to_nat (matchLimit - cc)) with (S (Z.to_nat (matchLimit - (cc + 1))))
      by lia.
    reflexivity.
  - replace (Z.to_nat (matchLimit - cc)) with 0 by lia. reflexivity.
Qed.

Lemma capped_capped_from {A} (matchLimit : Z) (matches : list A) :
  capped matchLimit matches = capped_from matchLimit 0 matches.
Proof. unfold capped, capped_from. now rewrite Z.sub_0_r. Qed.

Lemma capped_nil_iff {A} (matchLimit : Z) (matches : list A) :
  capped matchLimit matches = [] <-> matches = [].
Proof.
  unfold capped. destruct (Z.leb_spec matchLimit 0) as [Hle|Hgt]; [reflexivity|].
  destruct matches as [|m rest]; [now rewrite firstn_nil|].
  replace (Z.to_nat matchLimit) with (S (Z.to_nat (matchLimit - 1))) by lia.
  cbn. split; discriminate.
Qed.

Lemma capped_length {A} (matchLimit : Z) (matches : list A) :
  length (capped matchLimit matches)
  = if (matchLimit <=? 0)%Z then length matches
    else Nat.min (Z.to_nat matchLimit) (length matches).
Proof.
  unfold capped. destruct (matchLimit <=? 0)%Z; [reflexivity | apply length_firstn].
Qed.

(** The loop over the candidates: a line for each one that the limit lets
    through. *)
Lemma stream_matches_run (opening : QString) (matchLimit : Z)
    (matches : list QObjectPtr) :
  forall cc outs s,
    (0 <= cc)%Z ->
    yields_all fuel tk (capped_from matchLimit cc matches) outs ->
    stream_matches fuel tk opening matchLimit cc matches s
    = Some (match outs with [] => false | _ :: _ => true end,
            reported (text_of (map (candidate_line opening) (map fst outs)))
                     (concat (map snd outs)) s).
Proof.
  induction matches as [|m rest IH]; intros cc outs s Hcc Hall.
  - rewrite capped_from_nil in Hall. inversion Hall; subst.
    cbn. unfold ret. now rewrite reported_nil.
  - rewrite capped_from_cons in Hall by assumption.
    cbn [stream_matches].
    destruct ((matchLimit <=? 0)%Z || (cc <? matchLimit)%Z).
    + inversion Hall as [|? [name msgs] ? outs' Hm Hrest]; subst.
      cbn [fst snd] in Hm.
      run_with (Hm s).
      run_with (stream_run _ _).
      assert (Hnext : (0 <= cc + 1)%Z) by lia.
      run_with (IH _ _ _ Hnext Hrest).
      unfold ret. cbn [map fst snd text_of concat].
      rewrite logged_reported, !reported_reported.
      reflexivity.
    + inversion Hall; subst. cbn. unfold ret. now rewrite reported_nil.
Qed.

Lemma stream_more_run (opening : QString) (matchLimit : Z) (size : nat) (s : Process) :
  stream_more opening matchLimit size s
  = Some (tt, reported (if truncated matchLimit size
                        then more_line opening (Z.of_nat size - matchLimit)
                        else EmptyString) [] s).
Proof.
  unfold stream_more, truncated.
  destruct ((0 <? matchLimit)%Z && (matchLimit <? Z.of_nat size)%Z).
  - apply stream_run.
  - unfold ret. now rewrite reported_nil.
Qed.

(** One list of candidates in the diagnostic. *)
Lemma candidates_run (opening opening_more : QString) (matchLimit : Z)
    (matches : list QObjectPtr) (outs : list (QString * list Critical))
    (s : Process) {B} (k : bool -> M B) :
  yields_all fuel tk (capped matchLimit matches) outs ->
  bind (stream_matches fuel tk opening matchLimit 0 matches)
       (fun found => bind (stream_more opening_more matchLimit (length matches))
                          (fun _ => k found)) s
  = k (match matches with [] => false | _ :: _ => true end)
      (reported (candidates_text opening opening_more matchLimit (map fst outs)
                                 (length matches))
                (concat (map snd outs)) s).
Proof.
  intros Hall.
  assert (Hfound : match outs with [] => false | _ :: _ => true end
                   = match matches with [] => false | _ :: _ => true end).
  { pose proof (capped_nil_iff matchLimit matches) as Hnil.
    inversion Hall as [Hc|? ? ? ? ? ? Hc]; subst.
    - symmetry in Hc. apply Hnil in Hc. now subst.
    - destruct matches; [|reflexivity].
      rewrite (proj2 Hnil eq_refl) in Hc. discriminate. }
  rewrite capped_capped_from in Hall.
  run_with (stream_matches_run _ _ _ _ _ _ (Z.le_refl 0) Hall).
  run_with (stream_more_run _ _ _ _).
  rewrite reported_reported, app_nil_r, Hfound. reflexivity.
Qed.

(** The diagnostic written when the resolution stopped below [lastObj]. *)
Lemma report_failure_run (Name : QString) (names : list QString)
    (lastObj : QObjectPtr) (found : QString) (msgs0 : list Critical)
    (outs1 outs2 : list (QString * list Critical)) (s : Process) :
  let matchLimit := matchLimit_of (qgetenv tk PQOBJECTNAMING_MATCH_LIMIT) in
  let named := findChildren tk lastObj (Some (last names EmptyString)) in
  let all := findChildren tk lastObj None in
  yields fuel tk lastObj found msgs0 ->
  yields_all fuel tk (capped matchLimit named) outs1 ->
  yields_all fuel tk (match named with [] => capped matchLimit all | _ :: _ => [] end)
             outs2 ->
  report_failure fuel tk Name names (Some lastObj) s
  = Some (tt,
          {| ErrorMessage :=
               failure_header Name found
               ++ candidates_text Possible_match Possible_match_more matchLimit
                                  (map fst outs1) (length named)
               ++ match named with
                  | [] => candidates_text Available_widget Available_widget_more
                                          matchLimit (map fst outs2) (length all)
                  | _ :: _ => EmptyString
                  end;
             criticalLog :=
               criticalLog s ++ msgs0 ++ concat (map snd outs1)
               ++ concat (map snd outs2) |}).
Proof.
  intros matchLimit named all Hlast Hnamed Hall.
  unfold report_failure.
  set (s0 := {| ErrorMessage := EmptyString; criticalLog := criticalLog s |}).
  assert (Hclear : clear_ErrorMessage s = Some (tt, s0)) by reflexivity.
  run_with Hclear.
  run_with (stream_run _ _).
  run_with (stream_run _ _).
  unfold bind at 1. run_with (Hlast _).
  rewrite stream_run.
  fold matchLimit named all.
  rewrite (candidates_run _ _ _ _ _ _ _ Hnamed).
  rewrite logged_reported, !reported_reported.
  destruct named as [|c rest].
  - cbn [negb].
    rewrite capped_capped_from in Hall.
    run_with (stream_matches_run Available_widget _ _ _ _ _ (Z.le_refl 0) Hall).
    rewrite stream_more_run, !reported_reported.
    unfold reported, s0, failure_header, candidates_text. cbn [ErrorMessage criticalLog].
    rewrite !app_nil_r, !string_append_assoc, <- !app_assoc.
    reflexivity.
  - cbn [negb]. inversion Hall; subst. unfold ret.
    unfold reported, s0, failure_header. cbn [ErrorMessage criticalLog map concat].
    rewrite !app_nil_r, !string_append_assoc, !string_append_empty_r.
    reflexivity.
Qed.

End Diagnostic.

Lemma five_items_yields (env : QString) (x : QObjectPtr) :
  In x [3; 4; 5; 6; 7] ->
  yields 2 (Samples.five_items env) x "win/panel/item"%string [].
Proof.
  intros Hx s. rewrite logged_nil.
  destruct Hx as [<-|[<-|[<-|[<-|[<-|[]]]]]]; reflexivity.
Qed.

Lemma five_items_yields_window (env : QString) :
  yields 2 (Samples.five_items env) 1 "win"%string [].
Proof. intros s. now rewrite logged_nil. Qed.

Lemma five_items_yields_all (env : QString) (l : list QObjectPtr) :
  incl l [3; 4; 5; 6; 7] ->
  yields_all 2 (Samples.five_items env) l (map (fun _ => ("win/panel/item"%string, [])) l).
Proof.
  induction l as [|x l IH]; intros Hincl; constructor.
  - apply five_items_yields, Hincl. now left.
  - apply IH. intros y Hy. apply Hincl. now right.
Qed.

(** C8.  The limit is 20 when the variable is empty or absent, and else
    what [toInt] makes of it.  The diagnostic has one line for each
    candidate that the limit lets through: all of them when the limit is 0
    or less, the first [matchLimit] of them otherwise, and then, when
    candidates were left out, one line that tells how many.  With five
    candidates and the limit 3 there are three candidate lines and the line
    [(and 2 more!)]. *)
Theorem candidate_list_is_capped
    (tk : Toolkit) (fuel : nat) (Name : QString) (names : list QString)
    (lastObj : QObjectPtr) (found : QString) (msgs0 : list Critical)
    (outs1 outs2 : list (QString * list Critical)) (s : Process) :
  let env := qgetenv tk PQOBJECTNAMING_MATCH_LIMIT in
  let matchLimit := matchLimit_of env in
  let named := findChildren tk lastObj (Some (last names EmptyString)) in
  let all := findChildren tk lastObj None in
  yields fuel tk lastObj found msgs0 ->
  yields_all fuel tk (capped matchLimit named) outs1 ->
  yields_all fuel tk (match named with [] => capped matchLimit all | _ :: _ => [] end)
             outs2 ->
  (env = EmptyString -> matchLimit = 20%Z)
  /\ (env <> EmptyString -> matchLimit = toInt env)
  /\ length outs1 = (if (matchLimit <=? 0)%Z then length named
                     else Nat.min (Z.to_nat matchLimit) (length named))
  /\ report_failure fuel tk Name names (Some lastObj) s
     = Some (tt,
             {| ErrorMessage :=
               (failure_header Name found
                  ++ (text_of (map (candidate_line "    Possible match:   `"%string)
                                   (map fst outs1))
                      ++ if (0 <? matchLimit)%Z && (matchLimit <? Z.of_nat (length named))%Z
                         then more_line "    Possible match: .... (and "%string
                                        (Z.of_nat (length named) - matchLimit)
                         else EmptyString)
                  ++ match named with
                     | [] => candidates_text Available_widget Available_widget_more
                                             matchLimit (map fst outs2) (length all)
                     | _ :: _ => EmptyString
                     end)%string;
                criticalLog :=
                  criticalLog s ++ msgs0 ++ concat (map snd outs1)
                  ++ concat (map snd outs2) |}).
Proof.
  intros env matchLimit named all Hlast Hnamed Hall.
  split; [|split; [|split]].
  - unfold matchLimit, matchLimit_of. now intros ->.
  - unfold matchLimit, matchLimit_of. intros Henv.
    now rewrite (proj2 (isEmpty_false env) Henv).
  - rewrite <- (Forall2_length Hnamed). apply capped_length.
  - exact (report_failure_run tk fuel Name names lastObj found msgs0 outs1 outs2 s
             Hlast Hnamed Hall).
Qed.

(** Five candidates and the limit 3: three candidate lines, and the line
    for the two left out. *)
Lemma candidate_list_is_capped_witness :
  report_failure 2 (Samples.five_items "3") "win/item" ["win"; "item"]%string
                 (Some 1) Samples.fresh
  = Some (tt, {| ErrorMessage := Samples.five_items_three_listed; criticalLog := [] |}).
Proof.
  exact (proj2 (proj2 (proj2
    (candidate_list_is_capped
       (Samples.five_items "3") 2 "win/item" ["win"; "item"]%string 1 "win" []
       (map (fun _ => ("win/panel/item"%string, [])) [3; 4; 5]) [] Samples.fresh
       (five_items_yields_window "3")
       (five_items_yields_all "3" [3; 4; 5]
          ltac:(intros y Hy; simpl in *; tauto))
       (Forall2_nil _))))).
Defined.

Example GetObject_five_items_limit_3 :
  option_map (fun r => (fst r, ErrorMessage (snd r)))
             (GetObject 2 (Samples.five_items "3") "win/item" Samples.fresh)
  = Some (None, Samples.five_items_three_listed).
Proof. reflexivity. Qed.

Example toInt_of_texts :
  toInt "abc"%string = 0%Z /\ toInt "0"%string = 0%Z /\ toInt "-3"%string = (-3)%Z
  /\ toInt "3"%string = 3%Z /\ toInt "99999999999"%string = 0%Z.
Proof. repeat split. Qed.

(** C10.  When the variable holds a text that [toInt] does not turn into a
    positive number (a text that is no number, 0, a negative number), the
    limit is not 20 and nothing is left out: the diagnostic has a line for
    every candidate, or, without candidates, for every descendant of the
    last object found, and no line about further ones. *)
Theorem unparsable_limit_is_unlimited
    (tk : Toolkit) (fuel : nat) (Name : QString) (names : list QString)
    (lastObj : QObjectPtr) (found : QString) (msgs0 : list Critical)
    (outs1 outs2 : list (QString * list Critical)) (s : Process) :
  let env := qgetenv tk PQOBJECTNAMING_MATCH_LIMIT in
  let named := findChildren tk lastObj (Some (last names EmptyString)) in
  let all := findChildren tk lastObj None in
  env <> EmptyString ->
  (toInt env <= 0)%Z ->
  yields fuel tk lastObj found msgs0 ->
  yields_all fuel tk named outs1 ->
  yields_all fuel tk (match named with [] => all | _ :: _ => [] end) outs2 ->
  (matchLimit_of env <= 0)%Z
  /\ length outs1 = length named
  /\ report_failure fuel tk Name names (Some lastObj) s
     = Some (tt,
             {| ErrorMessage :=
               (failure_header Name found
                  ++ text_of (map (candidate_line "    Possible match:   `"%string)
                                  (map fst outs1))
                  ++ match named with
                     | [] => text_of (map (candidate_line "    Available widget: `"%string)
                                          (map fst outs2))
                     | _ :: _ => EmptyString
                     end)%string;
                criticalLog :=
                  criticalLog s ++ msgs0 ++ concat (map snd outs1)
                  ++ concat (map snd outs2) |}).
Proof.
  intros env named all Henv Hint Hlast Hnamed Hall.
  assert (Hlimit : (matchLimit_of env <= 0)%Z).
  { unfold matchLimit_of. now rewrite (proj2 (isEmpty_false env) Henv). }
  assert (Hcap : forall A (l : list A), capped (matchLimit_of env) l = l).
  { intros A l. unfold capped. now rewrite (proj2 (Z.leb_le _ _) Hlimit). }
  assert (Htrunc : forall size, truncated (matchLimit_of env) size = false).
  { intros size. unfold truncated.
    now rewrite (proj2 (Z.ltb_ge _ _) Hlimit). }
  split; [exact Hlimit|]. split; [symmetry; exact (Forall2_length Hnamed)|].
  rewrite (report_failure_run tk fuel Name names lastObj found msgs0 outs1 outs2 s).
  - fold env named all. unfold candidates_text. rewrite !Htrunc.
    rewrite !string_append_empty_r. reflexivity.
  - exact Hlast.
  - fold env named. now rewrite Hcap.
  - fold env named all. rewrite Hcap. exact Hall.
Qed.

(** Five candidates, and a limit that is no number, 0, or negative. *)
Lemma unparsable_limit_is_unlimited_witness :
  report_failure 2 (Samples.five_items "abc") "win/item" ["win"; "item"]%string
                 (Some 1) Samples.fresh
  = Some (tt, {| ErrorMessage := Samples.five_items_all_listed; criticalLog := [] |})
  /\ report_failure 2 (Samples.five_items "0") "win/item" ["win"; "item"]%string
                    (Some 1) Samples.fresh
     = Some (tt, {| ErrorMessage := Samples.five_items_all_listed; criticalLog := [] |})
  /\ report_failure 2 (Samples.five_items "-3") "win/item" ["win"; "item"]%string
                    (Some 1) Samples.fresh
     = Some (tt, {| ErrorMessage := Samples.five_items_all_listed; criticalLog := [] |}).
Proof.
  split; [|split].
  - exact (proj2 (proj2
      (unparsable_limit_is_unlimited
         (Samples.five_items "abc") 2 "win/item" ["win"; "item"]%string 1 "win" []
         (map (fun _ => ("win/panel/item"%string, [])) [3; 4; 5; 6; 7]) []
         Samples.fresh
         ltac:(simpl; discriminate) ltac:(vm_compute; discriminate)
         (five_items_yields_window "abc")
         (five_items_yields_all "abc" [3; 4; 5; 6; 7] (incl_refl _))
         (Forall2_nil _)))).
  - exact (proj2 (proj2
      (unparsable_limit_is_unlimited
         (Samples.five_items "0") 2 "win/item" ["win"; "item"]%string 1 "win" []
         (map (fun _ => ("win/panel/item"%string, [])) [3; 4; 5; 6; 7]) []
         Samples.fresh
         ltac:(simpl; discriminate) ltac:(vm_compute; discriminate)
         (five_items_yields_window "0")
         (five_items_yields_all "0" [3; 4; 5; 6; 7] (incl_refl _))
         (Forall2_nil _)))).
  - exact (proj2 (proj2
      (unparsable_limit_is_unlimited
         (Samples.five_items "-3") 2 "win/item" ["win"; "item"]%string 1 "win" []
         (map (fun _ => ("win/panel/item"%string, [])) [3; 4; 5; 6; 7]) []
         Samples.fresh
         ltac:(simpl; discriminate) ltac:(vm_compute; discriminate)
         (five_items_yields_window "-3")
         (five_items_yields_all "-3" [3; 4; 5; 6; 7] (incl_refl _))
         (Forall2_nil _)))).
Defined.

(** * Further properties of the code *)

(** ** What GetName does and never does *)

Section GetNameOutcomes.

Variable tk : Toolkit.

Lemma ancestors_last_is_root (x : QObjectPtr) (l : list QObjectPtr) :
  ancestors tk x l -> parent tk (last l x) = None.
Proof.
  induction 1 as [x Hroot | x p l Hp Hanc IH]; [exact Hroot|].
  now rewrite last_cons_default.
Qed.

(** A loop over the parents that ends has walked a finite chain. *)
Lemma GetName_parents_chain (fuel : nat) (Object : QObjectPtr) :
  forall name p s r,
    GetName_parents fuel tk Object name (Some p) s = Some r ->
    exists l, ancestors tk p l /\ length l < fuel.
Proof.
  induction fuel as [|fuel IH]; intros name p s r H; [discriminate|].
  cbn [GetName_parents] in H.
  rewrite (proj2 (isEmpty_false _) (InternalGetName_nonempty tk p)) in H.
  destruct (parent tk p) as [q|] eqn:Hq.
  - cbn [andb] in H. destruct (IH _ _ _ _ H) as (l & Hanc & Hlen).
    exists (q :: l). split; [now apply ancestors_step | cbn; lia].
  - exists []. split; [now apply ancestors_root | cbn; lia].
Qed.

Lemma GetName_chain (fuel : nat) (Object : QObjectPtr) (s : Process)
    (r : QString * Process) :
  GetName fuel tk Object s = Some r ->
  exists l, ancestors tk Object l /\ length l <= fuel.
Proof.
  unfold GetName.
  rewrite (proj2 (isEmpty_false _) (InternalGetName_nonempty tk Object)).
  destruct (parent tk Object) as [p|] eqn:Hp.
  - intros H. destruct (GetName_parents_chain _ _ _ _ _ _ H) as (l & Hanc & Hlen).
    exists (p :: l). split; [now apply ancestors_step | cbn; lia].
  - intros _. exists []. split; [now apply ancestors_root | cbn; lia].
Qed.

Lemma join_snoc (sep : QString) (segs : list QString) (seg : QString) :
  segs <> [] ->
  join sep (segs ++ [seg]) = (join sep segs ++ sep ++ seg)%string.
Proof.
  induction segs as [|a rest IH]; [congruence|]. intros _.
  destruct rest as [|b rest'].
  - reflexivity.
  - change (join sep ((a :: b :: rest') ++ [seg]))
      with (a ++ sep ++ join sep ((b :: rest') ++ [seg]))%string.
    rewrite IH by discriminate.
    change (join sep (a :: b :: rest')) with (a ++ sep ++ join sep (b :: rest'))%string.
    now rewrite !string_append_assoc.
Qed.

End GetNameOutcomes.

(** X1.  Whenever [GetName] returns, it has left [ErrorMessage] alone and
    done one of two things: returned a name that is not empty and logged
    nothing, or returned the empty string and logged one message, the one
    about an ancestor without parent that is not a top-level widget.  The
    messages about an unnamed object and about an incompletely named one
    are never logged, since no derived name is empty. *)
Theorem GetName_outcomes
    (tk : Toolkit) (fuel : nat) (Object : QObjectPtr) (s s' : Process)
    (name : QString) :
  GetName fuel tk Object s = Some (name, s') ->
  ErrorMessage s' = ErrorMessage s
  /\ ((name <> EmptyString /\ s' = s)
      \/ (name = EmptyString
          /\ exists p so_far,
               s' = logged [ParentNotTopLevel Object p so_far] s
               /\ p <> Object
               /\ parent tk p = None
               /\ registered_top_level tk p = false
               /\ parent tk Object <> None)).
Proof.
  intros Hget.
  destruct (GetName_chain tk _ _ _ _ Hget) as (l & Hanc & Hlen).
  rewrite (GetName_run tk _ _ Hanc fuel s Hlen) in Hget.
  destruct l as [|p l'].
  - injection Hget as <- <-. split; [reflexivity|]. left.
    split; [apply InternalGetName_nonempty | reflexivity].
  - destruct (registered_top_level tk (last (p :: l') Object)) eqn:Hreg;
      injection Hget as <- <-.
    + split; [reflexivity|]. left. split; [apply path_names_nonempty | reflexivity].
    + split; [reflexivity|]. right. split; [reflexivity|].
      eexists _, _. split; [reflexivity|].
      pose proof (ancestors_last_is_root tk _ _ Hanc) as Hroot.
      assert (Hp : parent tk Object <> None).
      { inversion Hanc; subst. congruence. }
      repeat split; try assumption.
      intros Heq. apply Hp. now rewrite <- Heq.
Qed.

(** A button of the sample window, and the label without top-level
    window. *)
Lemma GetName_outcomes_witness :
  (ErrorMessage Samples.fresh = ErrorMessage Samples.fresh
   /\ (("win/0Button1"%string <> EmptyString /\ Samples.fresh = Samples.fresh)
       \/ ("win/0Button1"%string = EmptyString
           /\ exists p so_far,
                Samples.fresh = logged [ParentNotTopLevel 3 p so_far] Samples.fresh
                /\ p <> 3
                /\ parent Samples.buttons p = None
                /\ registered_top_level Samples.buttons p = false
                /\ parent Samples.buttons 3 <> None)))
  /\ GetName 1 Samples.detached 2 Samples.fresh
     = Some (EmptyString,
             logged [ParentNotTopLevel 2 1 "holder/lbl"%string] Samples.fresh).
Proof.
  split.
  - apply (GetName_outcomes Samples.buttons 1 3 Samples.fresh Samples.fresh
             "win/0Button1"%string).
    reflexivity.
  - reflexivity.
Defined.

(** X2.  Names compose along the parent link: when [GetName] gives a child
    a name that is not empty, it gives its parent one too, and the name of
    the child is the name of the parent, a '/', and the derived name of the
    child. *)
Theorem GetName_extends_parent_name
    (tk : Toolkit) (fuel : nat) (x p : QObjectPtr) (s s' : Process)
    (name : QString) :
  parent tk x = Some p ->
  GetName fuel tk x s = Some (name, s') ->
  name <> EmptyString ->
  exists parent_name,
    GetName fuel tk p s = Some (parent_name, s)
    /\ parent_name <> EmptyString
    /\ name = (parent_name ++ "/" ++ InternalGetName tk x)%string.
Proof.
  intros Hp Hget Hname.
  destruct (GetName_chain tk _ _ _ _ Hget) as (l & Hanc & Hlen).
  destruct (GetName_result tk _ _ _ _ _ _ Hanc Hget Hname) as (-> & -> & Hreg).
  inversion Hanc as [? Hroot | ? q l' Hq Hanc']; subst; [congruence|].
  assert (q = p) by congruence. subst q.
  specialize (Hreg ltac:(discriminate)). rewrite last_cons_default in Hreg.
  exists (join "/"%string (map (InternalGetName tk) (path_to p l'))).
  split; [|split].
  - rewrite (GetName_run tk _ _ Hanc' fuel s) by (cbn in Hlen; lia).
    destruct l' as [|g l'']; [reflexivity|].
    now rewrite Hreg.
  - apply path_names_nonempty.
  - unfold path_to. cbn [rev].
    rewrite (map_app _ (rev l' ++ [p]) [x]). cbn [map].
    apply join_snoc.
    rewrite map_app. intros H. apply app_eq_nil in H as [_ H]. discriminate H.
Qed.

(** The items of the panel in the sample window. *)
Lemma GetName_extends_parent_name_witness :
  exists parent_name,
    GetName 2 (Samples.five_items EmptyString) 2 Samples.fresh
    = Some (parent_name, Samples.fresh)
    /\ parent_name <> EmptyString
    /\ "win/panel/item"%string
       = (parent_name ++ "/" ++ InternalGetName (Samples.five_items EmptyString) 4)%string.
Proof.
  apply (GetName_extends_parent_name
           (Samples.five_items EmptyString) 2 4 2 Samples.fresh Samples.fresh
           "win/panel/item"%string).
  - reflexivity.
  - reflexivity.
  - discriminate.
Defined.

(** ** How GetObject resolves a name, segment by segment *)

Section Resolution.

Variable tk : Toolkit.

Lemma split_append (sep : ascii) (a b : QString) :
  split sep (a ++ String sep b) = split sep a ++ split sep b.
Proof.
  induction a as [|c a IH]; cbn [String.append split].
  - now rewrite Ascii.eqb_refl.
  - rewrite IH. destruct (Ascii.eqb c sep); [reflexivity|].
    pose proof (split_nonempty sep a) as Hne.
    destruct (split sep a) as [|part parts]; [congruence | reflexivity].
Qed.

Lemma descend_app (names1 names2 : list QString) :
  forall result lastObject,
    descend tk (names1 ++ names2) result lastObject
    = match descend tk names1 result lastObject with
      | Some (result', lastObject') => descend tk names2 result' lastObject'
      | None => None
      end.
Proof.
  induction names1 as [|objectName rest IH]; intros result lastObject;
    cbn [app descend]; [reflexivity|].
  destruct (scan_children _ tk _ 0 objectName) as [[child|]|]; [| |reflexivity];
    apply IH.
Qed.

(** Once a segment has no match, no later segment has one, and the last
    object found stays. *)
Lemma descend_from_null (names : list QString) (lastObject : option QObjectPtr) :
  descend tk names None lastObject = Some (None, lastObject).
Proof.
  induction names as [|objectName rest IH]; [reflexivity|].
  cbn [descend]. rewrite scan_children_two_passes. cbn [find tl].
  destruct (leading_zero objectName); exact IH.
Qed.

(** The last object found is the result, when there is one. *)
Lemma descend_last_is_result (names : list QString) :
  forall start found lastObject,
    descend tk names start start = Some (Some found, lastObject) ->
    lastObject = Some found.
Proof.
  induction names as [|objectName rest IH]; intros start found lastObject H.
  - cbn in H. now injection H as -> <-.
  - cbn [descend] in H.
    destruct (scan_children _ tk _ 0 objectName) as [[child|]|]; [| |discriminate].
    + exact (IH _ _ _ H).
    + rewrite descend_from_null in H. discriminate H.
Qed.

Lemma no_name_is_empty (o : QObjectPtr) : name_matches tk EmptyString o = false.
Proof.
  unfold name_matches. apply orb_false_iff. split; apply String.eqb_neq.
  - apply InternalGetName_nonempty.
  - apply InternalGetNameAsUnnamed_nonempty.
Qed.

(** [GetObject] past its two early returns. *)
Lemma GetObject_searched (fuel : nat) (Name : QString) (s : Process) :
  Name <> EmptyString ->
  InternalGetName tk (instance tk) <> Name ->
  let names := split slash Name in
  let top := find (name_matches tk (hd EmptyString names)) (topLevelWidgets tk) in
  GetObject fuel tk Name s
  = match descend tk (tl names) top top with
    | None => None
    | Some (Some result, _) => Some (Some result, s)
    | Some (None, lastObject) =>
        bind (report_failure fuel tk Name names lastObject) (fun _ => ret None) s
    end.
Proof.
  intros Hname Happ names top. unfold GetObject.
  rewrite (proj2 (isEmpty_false Name) Hname).
  rewrite (proj2 (String.eqb_neq _ _) Happ).
  rewrite find_top_level_find. fold names top.
  destruct (descend tk (tl names) top top) as [[[result|] lastObject]|]; reflexivity.
Qed.

Lemma report_then_null_is_null (fuel : nat) (Name : QString) (names : list QString)
    (lastObject : option QObjectPtr) (s s' : Process) (result : option QObjectPtr) :
  bind (report_failure fuel tk Name names lastObject) (fun _ => ret None) s
  = Some (result, s') ->
  result = None.
Proof.
  unfold bind, ret.
  destruct (report_failure fuel tk Name names lastObject s) as [[[] s1]|];
    [|discriminate].
  now intros [= <- _].
Qed.

Lemma scan_children_found_among (children : list QObjectPtr) (objectName : QString) :
  scan_children (scan_fuel children) tk children 0 objectName
  = Some (found_among tk children objectName).
Proof.
  rewrite scan_children_two_passes. unfold found_among.
  destruct (find (name_matches tk objectName) children); [reflexivity|].
  destruct (leading_zero objectName); reflexivity.
Qed.

Lemma found_among_In (children : list QObjectPtr) (objectName : QString)
    (child : QObjectPtr) :
  found_among tk children objectName = Some child -> In child children.
Proof.
  unfold found_among.
  destruct (find (name_matches tk objectName) children) as [c|] eqn:Hfirst.
  - intros [= <-]. now apply find_some in Hfirst.
  - destruct (leading_zero objectName); [|discriminate].
    intros H. apply find_some in H as [H _].
    destruct children; [contradiction | now right].
Qed.

(** The search of [GetObject] for a name with one more segment. *)
Lemma descend_one_more (P seg : QString) :
  P <> EmptyString ->
  contains slash seg = false ->
  let names := split slash (P ++ "/"%string ++ seg) in
  hd EmptyString names = hd EmptyString (split slash P)
  /\ tl names = tl (split slash P) ++ [seg]
  /\ last names EmptyString = seg.
Proof.
  intros HP Hseg names. subst names.
  change (P ++ "/"%string ++ seg)%string with (P ++ String slash seg)%string.
  rewrite split_append, (split_absent _ _ Hseg).
  pose proof (split_nonempty slash P) as Hne.
  destruct (split slash P) as [|first rest]; [congruence|].
  cbn [app hd tl]. repeat split.
  change (first :: rest ++ [seg]) with ((first :: rest) ++ [seg]).
  apply last_last.
Qed.

End Resolution.

(** X3.  An object without parent always gets its derived name from
    [GetName], with any fuel and without a look at the top-level widgets.
    When it is neither a top-level widget nor the application, [GetObject]
    never returns it for that name: what [GetObject] returns for a name of
    one segment is the application or a top-level widget. *)
Theorem parentless_object_named_but_not_found
    (tk : Toolkit) (fuel fuel' : nat) (x : QObjectPtr) (s s0 : Process) :
  parent tk x = None ->
  ~ In x (topLevelWidgets tk) ->
  x <> instance tk ->
  GetName fuel tk x s = Some (InternalGetName tk x, s)
  /\ InternalGetName tk x <> EmptyString
  /\ option_map fst (GetObject fuel' tk (InternalGetName tk x) s0) <> Some (Some x).
Proof.
  intros Hroot Htop Happ. split; [|split].
  - apply (GetName_run tk x [] (ancestors_root tk x Hroot) fuel s). cbn. lia.
  - apply InternalGetName_nonempty.
  - destruct (String.eqb_spec (InternalGetName tk (instance tk)) (InternalGetName tk x))
      as [Hsame|Hdiff].
    + unfold GetObject.
      rewrite (proj2 (isEmpty_false _) (InternalGetName_nonempty tk x)).
      rewrite (proj2 (String.eqb_eq _ _) Hsame). cbn. congruence.
    + rewrite (GetObject_searched tk fuel' _ s0 (InternalGetName_nonempty tk x) Hdiff).
      rewrite (split_absent _ _ (InternalGetName_no_slash tk x)). cbn [hd tl descend].
      destruct (find (name_matches tk (InternalGetName tk x)) (topLevelWidgets tk))
        as [r|] eqn:Hfind.
      * cbn. apply find_some in Hfind as [Hin _]. congruence.
      * destruct (bind _ _ s0) as [[result s1]|] eqn:Hreport; [|discriminate].
        apply report_then_null_is_null in Hreport. subst result. discriminate.
Qed.

(** The holder of the detached label: no parent, no top-level widget. *)
Lemma parentless_object_named_but_not_found_witness :
  GetName 0 Samples.detached 1 Samples.fresh = Some ("holder"%string, Samples.fresh)
  /\ "holder"%string <> EmptyString
  /\ option_map fst (GetObject 1 Samples.detached "holder"%string Samples.fresh)
     <> Some (Some 1).
Proof.
  apply (parentless_object_named_but_not_found
           Samples.detached 0 1 1 Samples.fresh Samples.fresh).
  - reflexivity.
  - simpl. tauto.
  - discriminate.
Defined.

(** X4.  The application has a round trip of its own: [GetObject] compares
    the whole name with the derived name of the application before it
    looks at any top-level widget, so that name always resolves to the
    application, and it is the name [GetName] gives an application without
    parent. *)
Theorem application_round_trip
    (tk : Toolkit) (fuel fuel' : nat) (s s0 : Process) :
  parent tk (instance tk) = None ->
  GetName fuel tk (instance tk) s = Some (InternalGetName tk (instance tk), s)
  /\ GetObject fuel' tk (InternalGetName tk (instance tk)) s0
     = Some (Some (instance tk), s0).
Proof.
  intros Hroot. split.
  - apply (GetName_run tk _ [] (ancestors_root tk _ Hroot) fuel s). cbn. lia.
  - unfold GetObject.
    rewrite (proj2 (isEmpty_false _) (InternalGetName_nonempty tk (instance tk))).
    now rewrite String.eqb_refl.
Qed.

(** The unnamed application of the sample window. *)
Lemma application_round_trip_witness :
  GetName 0 Samples.pair_window 0 Samples.fresh
  = Some ("QApplication0-app"%string, Samples.fresh)
  /\ GetObject 0 Samples.pair_window "QApplication0-app"%string Samples.fresh
     = Some (Some 0, Samples.fresh).
Proof.
  apply (application_round_trip Samples.pair_window 0 0 Samples.fresh Samples.fresh).
  reflexivity.
Defined.

(** X5.  A name of one segment, other than the name of the application,
    resolves to the first top-level widget whose derived name or name as
    unnamed is that segment, and to nothing else; there is no second
    search with '1' for '0' among the top-level widgets. *)
Theorem GetObject_single_segment
    (tk : Toolkit) (fuel : nat) (Name : QString) (s : Process) (r : QObjectPtr) :
  Name <> EmptyString ->
  contains slash Name = false ->
  InternalGetName tk (instance tk) <> Name ->
  GetObject fuel tk Name s = Some (Some r, s)
  <-> find (name_matches tk Name) (topLevelWidgets tk) = Some r.
Proof.
  intros Hname Hslash Happ.
  rewrite (GetObject_searched tk fuel Name s Hname Happ).
  rewrite (split_absent _ _ Hslash). cbn [hd tl descend].
  destruct (find (name_matches tk Name) (topLevelWidgets tk)) as [top|].
  - split; intros [= ->]; reflexivity.
  - split; [|discriminate].
    intros H. apply report_then_null_is_null in H. discriminate H.
Qed.

(** The sample window by its name, and by its name as unnamed. *)
Lemma GetObject_single_segment_witness :
  (GetObject 0 Samples.pair_window "win"%string Samples.fresh = Some (Some 1, Samples.fresh)
   <-> find (name_matches Samples.pair_window "win"%string)
            (topLevelWidgets Samples.pair_window) = Some 1)
  /\ GetObject 0 Samples.pair_window "1QMainWindow0"%string Samples.fresh
     = Some (Some 1, Samples.fresh).
Proof.
  split.
  - apply (GetObject_single_segment Samples.pair_window 0 "win"%string Samples.fresh 1);
      [discriminate | reflexivity | discriminate].
  - apply (GetObject_single_segment Samples.pair_window 0 "1QMainWindow0"%string
             Samples.fresh 1); [discriminate | reflexivity | discriminate | reflexivity].
Defined.

(** X6.  Resolution goes down one segment at a time.  Let [P] be a name
    that is not empty and is not the derived name of the application, and
    [seg] a segment without '/'.  Then [P/seg] resolves to [r] exactly when
    [P] resolves to an object [q] and one scan of the children of [q]
    finds [r] for [seg].  So [r] is a child of [q], and [P/seg] does not
    resolve when [P] does not.  (The name of the application is left out:
    it resolves to the application by the comparison of the whole name,
    which a longer name does not pass.) *)
Theorem GetObject_one_more_segment
    (tk : Toolkit) (fuel : nat) (P seg : QString) (s : Process) (r : QObjectPtr) :
  P <> EmptyString ->
  InternalGetName tk (instance tk) <> P ->
  contains slash seg = false ->
  (GetObject fuel tk (P ++ "/"%string ++ seg) s = Some (Some r, s)
   <-> exists q, GetObject fuel tk P s = Some (Some q, s)
                 /\ found_among tk (children tk q) seg = Some r)
  /\ (GetObject fuel tk (P ++ "/"%string ++ seg) s = Some (Some r, s) ->
      exists q, GetObject fuel tk P s = Some (Some q, s) /\ In r (children tk q)).
Proof.
  intros HP Happ Hseg.
  assert (Hiff : GetObject fuel tk (P ++ "/"%string ++ seg) s = Some (Some r, s)
                 <-> exists q, GetObject fuel tk P s = Some (Some q, s)
                               /\ found_among tk (children tk q) seg = Some r).
  { assert (Hlong : (P ++ "/"%string ++ seg)%string <> EmptyString).
    { apply append_nonempty_l, HP. }
    assert (Happ' : InternalGetName tk (instance tk) <> (P ++ "/"%string ++ seg)%string).
    { intros Heq.
      pose proof (InternalGetName_no_slash tk (instance tk)) as Hno.
      rewrite Heq, contains_append in Hno. cbn in Hno.
      now rewrite orb_true_r in Hno. }
    rewrite (GetObject_searched tk fuel _ s Hlong Happ').
    rewrite (GetObject_searched tk fuel P s HP Happ).
    destruct (descend_one_more P seg HP Hseg) as (-> & -> & _).
    rewrite descend_app.
    destruct (descend tk (tl (split slash P)) _ _) as [[[q|] lastObject]|] eqn:HD.
    - cbn [descend]. rewrite scan_children_found_among.
      destruct (found_among tk (children tk q) seg) as [c|] eqn:Hc.
      + split.
        * intros [= ->]. exists q. auto.
        * intros (q' & [= <-] & Hfound). congruence.
      + split.
        * intros H. apply report_then_null_is_null in H. discriminate H.
        * intros (q' & [= <-] & Hfound). congruence.
    - rewrite descend_from_null. split.
      + intros H. apply report_then_null_is_null in H. discriminate H.
      + intros (q' & H & _). apply report_then_null_is_null in H. discriminate H.
    - split; [discriminate|]. intros (q' & H & _). discriminate H. }
  split; [exact Hiff|].
  intros H. apply Hiff in H as (q & Hq & Hfound).
  exists q. split; [exact Hq | now apply found_among_In in Hfound].
Qed.

(** The first item of the panel in the sample window. *)
Lemma GetObject_one_more_segment_witness :
  exists q, GetObject 0 (Samples.five_items EmptyString) "win/panel"%string Samples.fresh
            = Some (Some q, Samples.fresh)
            /\ In 3 (children (Samples.five_items EmptyString) q).
Proof.
  apply (proj2 (GetObject_one_more_segment
                  (Samples.five_items EmptyString) 0 "win/panel"%string "item"%string
                  Samples.fresh 3
                  ltac:(discriminate) ltac:(discriminate) eq_refl)).
  reflexivity.
Defined.

(** ** The diagnostic after a failed resolution *)

Section DiagnosticHeader.

Variable tk : Toolkit.
Variable fuel : nat.

(** A computation that only adds to the diagnostic string and to the log. *)
Let grows {A} (c : M A) : Prop :=
  forall s a s', c s = Some (a, s') -> exists text msgs, s' = reported text msgs s.

Lemma bind_inv {A B} (c : M A) (k : A -> M B) (s s' : Process) (b : B) :
  bind c k s = Some (b, s') ->
  exists a s1, c s = Some (a, s1) /\ k a s1 = Some (b, s').
Proof.
  unfold bind. destruct (c s) as [[a s1]|]; [|discriminate]. eauto.
Qed.

Lemma grows_ret {A} (a : A) : grows (ret a).
Proof.
  intros s a' s' [= <- <-]. exists EmptyString, []. now rewrite reported_nil.
Qed.

Lemma grows_stream (text : QString) : grows (stream text).
Proof.
  intros s a s' H. rewrite stream_run in H. injection H as _ <-. eauto.
Qed.

Lemma grows_bind {A B} (c : M A) (k : A -> M B) :
  grows c -> (forall a, grows (k a)) -> grows (bind c k).
Proof.
  intros Hc Hk s b s' H.
  apply bind_inv in H as (a & s1 & H1 & H2).
  apply Hc in H1 as (t1 & m1 & ->). apply Hk in H2 as (t2 & m2 & ->).
  rewrite reported_reported. eauto.
Qed.

Lemma GetName_logs (x : QObjectPtr) (s s' : Process) (name : QString) :
  GetName fuel tk x s = Some (name, s') -> exists msgs, s' = logged msgs s.
Proof.
  intros H. destruct (GetName_chain tk _ _ _ _ H) as (l & Hanc & Hlen).
  destruct (GetName_yields tk x l fuel Hanc Hlen) as (name' & msgs & Hy).
  rewrite Hy in H. injection H as _ <-. eauto.
Qed.

Lemma grows_GetName (x : QObjectPtr) : grows (GetName fuel tk x).
Proof.
  intros s name s' H. apply GetName_logs in H as (msgs & ->).
  exists EmptyString, msgs. apply logged_reported.
Qed.

Lemma grows_stream_matches (opening : QString) (matchLimit : Z)
    (matches : list QObjectPtr) :
  forall cc, grows (stream_matches fuel tk opening matchLimit cc matches).
Proof.
  induction matches as [|m rest IH]; intros cc; cbn [stream_matches].
  - apply grows_ret.
  - destruct ((matchLimit <=? 0)%Z || (cc <? matchLimit)%Z); [|apply grows_ret].
    apply grows_bind; [apply grows_GetName|]. intros name.
    apply grows_bind; [apply grows_stream|]. intros _.
    apply grows_bind; [apply IH|]. intros _. apply grows_ret.
Qed.

Lemma grows_stream_more (opening : QString) (matchLimit : Z) (size : nat) :
  grows (stream_more opening matchLimit size).
Proof.
  unfold stream_more.
  destruct ((0 <? matchLimit)%Z && (matchLimit <? Z.of_nat size)%Z);
    [apply grows_stream | apply grows_ret].
Qed.

(** The diagnostic begins with the name that was not found, and with the
    name of the last object found when there is one. *)
Lemma report_failure_begins (Name : QString) (names : list QString)
    (lastObject : option QObjectPtr) (s s' : Process) :
  report_failure fuel tk Name names lastObject s = Some (tt, s') ->
  exists rest msgs,
    s' = {| ErrorMessage :=
              (newline ++ "Couldn't find object  `"%string ++ Name ++ "`"%string ++ newline) ++ rest;
            criticalLog := criticalLog s ++ msgs |}
    /\ forall lastObj found msgs0,
         lastObject = Some lastObj -> yields fuel tk lastObj found msgs0 ->
         exists rest',
           rest = (("Found up to           `"%string ++ found ++ "`"%string ++ newline) ++ rest')%string.
Proof.
  unfold report_failure. intros H.
  set (s0 := {| ErrorMessage := EmptyString; criticalLog := criticalLog s |}) in *.
  assert (Hclear : clear_ErrorMessage s = Some (tt, s0)) by reflexivity.
  rewrite (bind_Some _ _ _ _ _ Hclear) in H. cbn beta in H.
  rewrite (bind_Some _ _ _ _ _ (stream_run _ _)) in H. cbn beta in H.
  rewrite (bind_Some _ _ _ _ _ (stream_run _ _)) in H. cbn beta in H.
  rewrite reported_reported in H. cbn [app] in H.
  apply bind_inv in H as ([] & s3 & Hfound & Htail).
  assert (Hgrows : exists text msgs, s' = reported text msgs s3).
  { revert Htail. generalize s3.
    assert (Hg : grows
              (let matchLimitEnv := qgetenv tk PQOBJECTNAMING_MATCH_LIMIT in
               let matchLimit := matchLimit_of matchLimitEnv in
               match lastObject with
               | Some lastObj =>
                   bind (stream_matches fuel tk Possible_match matchLimit 0
                           (findChildren tk lastObj (Some (last names EmptyString))))
                     (fun foundMatch =>
                        bind (stream_more Possible_match_more matchLimit
                                (length (findChildren tk lastObj
                                           (Some (last names EmptyString)))))
                          (fun _ =>
                             if negb foundMatch
                             then bind (stream_matches fuel tk Available_widget
                                          matchLimit 0 (findChildren tk lastObj None))
                                    (fun _ => stream_more Available_widget_more matchLimit
                                                (length (findChildren tk lastObj None)))
                             else ret tt))
               | None => ret tt
               end)).
    { cbv zeta. destruct lastObject as [lastObj|]; [|apply grows_ret].
      apply grows_bind; [apply grows_stream_matches|]. intros foundMatch.
      apply grows_bind; [apply grows_stream_more|]. intros _.
      destruct (negb foundMatch); [|apply grows_ret].
      apply grows_bind; [apply grows_stream_matches|]. intros _.
      apply grows_stream_more. }
    intros s4 Htail. exact (Hg s4 tt s' Htail). }
  destruct Hgrows as (text & msgs & ->).
  destruct lastObject as [lastObj|].
  - apply bind_inv in Hfound as (found & s2 & Hname & Hline).
    rewrite stream_run in Hline. injection Hline as <-.
    pose proof (GetName_logs _ _ _ _ Hname) as (msgs1 & ->).
    rewrite logged_reported, !reported_reported.
    eexists _, _. split.
    + unfold reported, s0. cbn [ErrorMessage criticalLog String.append].
      rewrite !string_append_assoc. reflexivity.
    + intros lastObj' found' msgs0 [= <-] Hy.
      rewrite (Hy _) in Hname. injection Hname as <- _.
      cbn [String.append]. eexists. rewrite !string_append_assoc. reflexivity.
  - injection Hfound as <-. rewrite reported_reported.
    exists text, msgs. split; [reflexivity|].
    intros lastObj found msgs0 [=].
Qed.

End DiagnosticHeader.

(** X7.  When [GetObject] returns null, either the name was empty and the
    process is as before, old diagnostic included, or the diagnostic has
    been written anew: what [lastErrorMessage] returns then begins with an
    empty line and the line [Couldn't find object] with the name asked
    for, nothing of the old diagnostic is left, and the log has only
    grown. *)
Theorem null_result_reports_the_name
    (tk : Toolkit) (fuel : nat) (Name : QString) (s s' : Process) :
  GetObject fuel tk Name s = Some (None, s') ->
  (Name = EmptyString /\ s' = s)
  \/ (Name <> EmptyString
      /\ (exists rest,
            option_map fst (lastErrorMessage s')
            = Some ((newline ++ "Couldn't find object  `"%string ++ Name ++ "`"%string ++ newline)
                    ++ rest)%string)
      /\ exists msgs, criticalLog s' = criticalLog s ++ msgs).
Proof.
  unfold GetObject. destruct (isEmpty Name) eqn:Hempty.
  - intros [= <-]. left. split; [now apply isEmpty_true | reflexivity].
  - destruct (String.eqb (InternalGetName tk (instance tk)) Name); [discriminate|].
    destruct (descend tk _ _ _) as [[[found|] lastObject]|]; [discriminate| |discriminate].
    intros H. apply bind_inv in H as ([] & s1 & Hreport & [= <-]).
    apply report_failure_begins in Hreport as (rest & msgs & -> & _).
    right. split; [now apply isEmpty_false|].
    split; [exists rest | exists msgs]; reflexivity.
Qed.

(** The button asked for as invisible in the window with one child. *)
Lemma null_result_reports_the_name_witness :
  exists s',
    GetObject 1 Samples.single_button "win/0QPushButton0"%string Samples.fresh = Some (None, s')
    /\ (("win/0QPushButton0"%string = EmptyString /\ s' = Samples.fresh)
        \/ ("win/0QPushButton0"%string <> EmptyString
            /\ (exists rest,
                  option_map fst (lastErrorMessage s')
                  = Some ((newline ++ "Couldn't find object  `"%string ++ "win/0QPushButton0"%string
                           ++ "`"%string ++ newline) ++ rest)%string)
            /\ exists msgs, criticalLog s' = criticalLog Samples.fresh ++ msgs)).
Proof.
  eexists. split; [vm_compute; reflexivity|].
  apply (null_result_reports_the_name Samples.single_button 1 "win/0QPushButton0"%string
           Samples.fresh).
  reflexivity.
Defined.

Lemma five_items_yields_panel (env : QString) :
  yields 2 (Samples.five_items env) 2 "win/panel"%string [].
Proof. intros s. now rewrite logged_nil. Qed.

(** X8.  Let [P] be a name that is not empty and is not the derived name
    of the application, and [seg] a segment without '/'.  When [P]
    resolves to an object [q], no child of [q] is found for [seg], and
    [GetName] yields a name for [q] and for the candidates that the limit
    lets through, [GetObject] of [P/seg] returns null, and the diagnostic
    it leaves is the name asked for, the line [Found up to] with the name
    of [q], the deepest object found, and the candidates under [q]: the
    objects named [seg], or without any, all the objects under [q]. *)
Theorem diagnostic_names_deepest_object_found
    (tk : Toolkit) (fuel : nat) (P seg : QString) (q : QObjectPtr)
    (found : QString) (msgs0 : list Critical)
    (outs1 outs2 : list (QString * list Critical)) (s : Process) :
  let matchLimit := matchLimit_of (qgetenv tk PQOBJECTNAMING_MATCH_LIMIT) in
  let named := findChildren tk q (Some seg) in
  let all := findChildren tk q None in
  P <> EmptyString ->
  InternalGetName tk (instance tk) <> P ->
  contains slash seg = false ->
  GetObject fuel tk P s = Some (Some q, s) ->
  found_among tk (children tk q) seg = None ->
  yields fuel tk q found msgs0 ->
  yields_all fuel tk (capped matchLimit named) outs1 ->
  yields_all fuel tk (match named with [] => capped matchLimit all | _ :: _ => [] end)
             outs2 ->
  GetObject fuel tk (P ++ "/"%string ++ seg) s
  = Some (None,
          {| ErrorMessage :=
               (failure_header (P ++ "/"%string ++ seg) found
                ++ candidates_text Possible_match Possible_match_more matchLimit
                                   (map fst outs1) (length named)
                ++ match named with
                   | [] => candidates_text Available_widget Available_widget_more
                                           matchLimit (map fst outs2) (length all)
                   | _ :: _ => EmptyString
                   end)%string;
             criticalLog :=
               criticalLog s ++ msgs0 ++ concat (map snd outs1)
               ++ concat (map snd outs2) |}).
Proof.
  intros matchLimit named all HP Happ Hseg Hq Hnone Hy Hnamed Hall.
  assert (Hlong : (P ++ "/"%string ++ seg)%string <> EmptyString).
  { apply append_nonempty_l, HP. }
  assert (Happ' : InternalGetName tk (instance tk) <> (P ++ "/"%string ++ seg)%string).
  { intros Heq.
    pose proof (InternalGetName_no_slash tk (instance tk)) as Hno.
    rewrite Heq, contains_append in Hno. cbn in Hno.
    now rewrite orb_true_r in Hno. }
  rewrite (GetObject_searched tk fuel _ s Hlong Happ').
  rewrite (GetObject_searched tk fuel P s HP Happ) in Hq.
  destruct (descend_one_more P seg HP Hseg) as (Hhd & Htl & Hlast).
  rewrite Hhd, Htl, descend_app.
  destruct (descend tk (tl (split slash P)) _ _) as [[[q'|] lastObject]|] eqn:HD.
  - injection Hq as ->.
    apply descend_last_is_result in HD. subst lastObject.
    cbn [descend]. rewrite scan_children_found_among, Hnone.
    assert (Hreport := report_failure_run tk fuel (P ++ "/"%string ++ seg)
                         (split slash (P ++ "/"%string ++ seg)) q found msgs0 outs1 outs2 s).
    cbv zeta in Hreport. rewrite Hlast in Hreport.
    rewrite (bind_Some _ _ _ _ _ (Hreport Hy Hnamed Hall)).
    reflexivity.
  - apply report_then_null_is_null in Hq. discriminate Hq.
  - discriminate Hq.
Qed.

(** A child of the sample window that does not exist: the diagnostic names
    the window and lists the six objects under it. *)
Lemma diagnostic_names_deepest_object_found_witness :
  exists s',
    GetObject 2 (Samples.five_items EmptyString) "win/nothing"%string Samples.fresh
    = Some (None, s')
    /\ exists rest,
         ErrorMessage s' = (failure_header "win/nothing"%string "win"%string ++ rest)%string.
Proof.
  eexists. split.
  - apply (diagnostic_names_deepest_object_found
             (Samples.five_items EmptyString) 2 "win"%string "nothing"%string 1 "win"%string []
             [] (("win/panel"%string, []) :: map (fun _ => ("win/panel/item"%string, []))
                                                 [3; 4; 5; 6; 7])
             Samples.fresh
             ltac:(discriminate) ltac:(discriminate) eq_refl eq_refl eq_refl
             (five_items_yields_window EmptyString)
             (Forall2_nil _)
             (Forall2_cons 2 ("win/panel"%string, [])
                (five_items_yields_panel EmptyString)
                (five_items_yields_all EmptyString [3; 4; 5; 6; 7] (incl_refl _)))).
  - cbn [ErrorMessage]. eexists. reflexivity.
Defined.

(** ** Synthesized names among siblings *)

Section SiblingNames.

Variable tk : Toolkit.

Lemma string_of_uint_no_slash (d : Decimal.uint) :
  contains slash (NilEmpty.string_of_uint d) = false.
Proof. induction d; cbn; auto. Qed.

Lemma number_no_slash (n : Z) : contains slash (number n) = false.
Proof.
  unfold number. destruct (Z.to_int n) as [d|d]; cbn.
  - destruct d; try reflexivity; apply (string_of_uint_no_slash (_ d)).
  - destruct d; try reflexivity; apply (string_of_uint_no_slash (_ d)).
Qed.

Lemma to_int_not_nil (n : Z) :
  Z.to_int n <> Decimal.Pos Decimal.Nil /\ Z.to_int n <> Decimal.Neg Decimal.Nil.
Proof.
  destruct n as [|p|p]; cbn; split; try discriminate;
    intros [= H]; exact (DecimalPos.Unsigned.to_uint_nonnil p H).
Qed.

Lemma number_inj (a b : Z) : number a = number b -> a = b.
Proof.
  unfold number. intros H.
  apply (f_equal NilZero.int_of_string) in H.
  destruct (to_int_not_nil a) as [Ha1 Ha2]. destruct (to_int_not_nil b) as [Hb1 Hb2].
  rewrite !NilZero.isi in H by assumption.
  injection H as H. now apply DecimalZ.to_int_inj.
Qed.

Lemma string_append_cancel_l (a b c : QString) :
  (a ++ b)%string = (a ++ c)%string -> b = c.
Proof. induction a as [|d a IH]; cbn; [trivial|]. intros [= H]. auto. Qed.

Lemma same_kind_counts (type : QString) (l : list QObjectPtr) :
  length (filter (same_kind tk type false) l)
  + length (filter (same_kind tk type true) l) <= length l.
Proof.
  induction l as [|o l IH]; cbn [filter length]; [lia|].
  assert (Hf : same_kind tk type false o
               = String.eqb type (className tk o) && isEmpty (objectName tk o)
                 && negb (visible_widget tk o)).
  { unfold same_kind. now destruct (visible_widget tk o). }
  assert (Ht : same_kind tk type true o
               = String.eqb type (className tk o) && isEmpty (objectName tk o)
                 && visible_widget tk o).
  { unfold same_kind. now destruct (visible_widget tk o). }
  rewrite Hf, Ht.
  destruct (String.eqb type (className tk o) && isEmpty (objectName tk o));
    destruct (visible_widget tk o); cbn [andb negb length]; lia.
Qed.

Lemma preceding_length (x : QObjectPtr) (l : list QObjectPtr) :
  length (preceding x l) <= length l
  /\ (In x l -> length (preceding x l) < length l).
Proof.
  induction l as [|y l [IH1 IH2]]; cbn [preceding length In]; [split; [lia|tauto]|].
  destruct (Nat.eqb_spec y x) as [->|Hne]; cbn [length].
  - split; intros; lia.
  - split; [lia|]. intros [H|H]; [congruence|]. specialize (IH2 H). lia.
Qed.

(** The place of an unnamed sibling among those of its kind. *)
Lemma place_among_kind (p x : QObjectPtr) (type : QString) (visible : bool) :
  NoDup (children tk p) ->
  In x (children tk p) ->
  same_kind tk type visible x = true ->
  exists k,
    nth_error (filter (same_kind tk type visible) (children tk p)) k = Some x
    /\ length (filter (same_kind tk type visible) (preceding x (children tk p))) = k.
Proof.
  intros Hnd Hin Hkind.
  assert (Hf : In x (filter (same_kind tk type visible) (children tk p))).
  { apply filter_In. auto. }
  apply In_nth_error in Hf as [k Hk]. exists k. split; [exact Hk|].
  now destruct (preceding_of_filtered _ _ _ _ Hnd Hk).
Qed.

End SiblingNames.

(** X9.  Two different unnamed children of one parent that have the same
    type tag, and are both widgets or both not, never get the same
    synthesized name, whatever their visibility. *)
Theorem unnamed_siblings_of_a_type_get_different_names
    (tk : Toolkit) (p x y : QObjectPtr) :
  NoDup (children tk p) ->
  In x (children tk p) -> In y (children tk p) ->
  parent tk x = Some p -> parent tk y = Some p ->
  x <> y ->
  objectName tk x = EmptyString -> objectName tk y = EmptyString ->
  className tk x = className tk y ->
  isWidgetType tk x = isWidgetType tk y ->
  InternalGetNameAsUnnamed tk x <> InternalGetNameAsUnnamed tk y.
Proof.
  intros Hnd Hx Hy Hpx Hpy Hne Hnx Hny Hclass Hwidget.
  rewrite !InternalGetNameAsUnnamed_count.
  unfold siblings_of. rewrite Hpx, Hpy, <- Hclass.
  assert (Hkind : forall o, objectName tk o = EmptyString ->
                            className tk o = className tk x ->
                            same_kind tk (className tk x) (visible_widget tk o) o = true).
  { intros o Hno Hco. unfold same_kind.
    rewrite Hco, String.eqb_refl, Hno. cbn. apply eqb_reflx. }
  destruct (place_among_kind tk p x _ _ Hnd Hx (Hkind x Hnx eq_refl))
    as (kx & Hkx & ->).
  destruct (place_among_kind tk p y _ _ Hnd Hy (Hkind y Hny (eq_sym Hclass)))
    as (ky & Hky & ->).
  unfold visibility_digit, visible_widget, qobject_cast_QWidget in *.
  rewrite <- Hwidget in *.
  destruct (isWidgetType tk x).
  - destruct (isVisible tk x), (isVisible tk y); try (cbn; discriminate).
    + intros H. rewrite !replace_append in H.
      apply string_append_cancel_l, string_append_cancel_l in H.
      rewrite !replace_absent in H by apply number_no_slash.
      apply number_inj, Nat2Z.inj in H. subst ky. congruence.
    + intros H. rewrite !replace_append in H.
      apply string_append_cancel_l, string_append_cancel_l in H.
      rewrite !replace_absent in H by apply number_no_slash.
      apply number_inj, Nat2Z.inj in H. subst ky. congruence.
  - intros H. rewrite !replace_append in H.
    apply string_append_cancel_l, string_append_cancel_l in H.
    rewrite !replace_absent in H by apply number_no_slash.
    apply number_inj, Nat2Z.inj in H. subst ky. congruence.
Qed.

(** Two of the unnamed buttons of the sample window. *)
Lemma unnamed_siblings_of_a_type_get_different_names_witness :
  InternalGetNameAsUnnamed Samples.buttons 2 <> InternalGetNameAsUnnamed Samples.buttons 4.
Proof.
  apply (unnamed_siblings_of_a_type_get_different_names Samples.buttons 1 2 4);
    try reflexivity.
  - repeat constructor; simpl; intuition discriminate.
  - simpl. tauto.
  - simpl. tauto.
  - discriminate.
Defined.

Lemma preceding_split (x : QObjectPtr) (l : list QObjectPtr) :
  ~ In x (preceding x l)
  /\ (In x l -> exists after, l = preceding x l ++ x :: after)
  /\ (~ In x l -> preceding x l = l).
Proof.
  induction l as [|y l (IH1 & IH2 & IH3)]; cbn [preceding In].
  - split; [tauto|]. split; [tauto | reflexivity].
  - destruct (Nat.eqb_spec y x) as [->|Hne].
    + split; [intros []|]. split; [intros _; now exists l | tauto].
    + split; [|split].
      * intros [H|H]; [congruence | tauto].
      * intros [H|H]; [congruence|]. destruct (IH2 H) as [after Hafter].
        exists after. cbn [app]. now rewrite <- Hafter.
      * intros H. f_equal. apply IH3. tauto.
Qed.

(** X10.  The loop over the siblings stops at the object.  Its counters are
    the numbers of unnamed siblings of the type before the object: those
    that are visible widgets, and the others.  So they are never negative,
    and together they count at most the siblings before the object, fewer
    than [siblings.size()] when the object is in the list: an index in a
    synthesized name cannot overflow an [int] that holds the size of the
    list. *)
Theorem sibling_counters_are_bounded
    (tk : Toolkit) (Object : QObjectPtr) (type : QString)
    (siblings : list QObjectPtr) :
  let counters := count_siblings tk Object type siblings 0 0 in
  let before := preceding Object siblings in
  ((0 <= fst counters)%Z /\ (0 <= snd counters)%Z
   /\ (fst counters + snd counters <= Z.of_nat (length siblings))%Z
   /\ (In Object siblings ->
       (fst counters + snd counters < Z.of_nat (length siblings))%Z))
  /\ (~ In Object before
      /\ (In Object siblings -> exists after, siblings = before ++ Object :: after)
      /\ (~ In Object siblings -> before = siblings))
  /\ fst counters = Z.of_nat (length (filter (same_kind tk type false) before))
  /\ snd counters = Z.of_nat (length (filter (same_kind tk type true) before))
  /\ (fst counters + snd counters <= Z.of_nat (length before))%Z.
Proof.
  cbv zeta. rewrite count_siblings_preceding. cbn [fst snd].
  pose proof (same_kind_counts tk type (preceding Object siblings)) as Hsum.
  destruct (preceding_length Object siblings) as [Hle Hlt].
  split; [|split; [apply preceding_split|]].
  - repeat split; try lia.
    intros Hin. specialize (Hlt Hin). lia.
  - repeat split; lia.
Qed.

(** The last unnamed button of the sample window, after two of its kind,
    which the loop counts, and before a timer, which it does not reach. *)
Lemma sibling_counters_are_bounded_witness :
  let counters := count_siblings Samples.buttons 4 "Button"%string [2; 3; 4; 5] 0 0 in
  counters = (2%Z, 0%Z) /\ (fst counters + snd counters < 4)%Z
  /\ preceding 4 [2; 3; 4; 5] = [2; 3]
  /\ (exists after, [2; 3; 4; 5] = preceding 4 [2; 3; 4; 5] ++ 4 :: after).
Proof.
  pose proof (sibling_counters_are_bounded Samples.buttons 4 "Button"%string [2; 3; 4; 5])
    as (Hbounds & (_ & Hsplit & _) & _).
  split; [reflexivity|]. split; [|split; [reflexivity|]].
  - apply (proj2 (proj2 (proj2 Hbounds))). simpl. tauto.
  - apply Hsplit. simpl. tauto.
Defined.

(** ** What DumpHierarchy does to its list *)

Section DumpAppends.

Variable tk : Toolkit.
Variable fuel : nat.

Lemma logged_logged (m1 m2 : list Critical) (s : Process) :
  logged m2 (logged m1 s) = logged (m1 ++ m2) s.
Proof. unfold logged. cbn. now rewrite app_assoc. Qed.

(** [results] in front of the names of an outcome. *)
Let in_front (results : list QString) (out : list QString * Process)
    : list QString * Process :=
  (results ++ fst out, snd out).

Lemma in_front_in_front (r1 r2 : list QString)
    (out : option (list QString * Process)) :
  option_map (in_front r1) (option_map (in_front r2) out)
  = option_map (in_front (r1 ++ r2)) out.
Proof.
  destruct out as [[names s]|]; [|reflexivity].
  unfold in_front. cbn. now rewrite app_assoc.
Qed.

Lemma for_each_in_front (body : QObjectPtr -> list QString -> M (list QString))
    (cs : list QObjectPtr) :
  (forall c results s, body c results s = option_map (in_front results) (body c [] s)) ->
  forall results s,
    for_each body cs results s = option_map (in_front results) (for_each body cs [] s).
Proof.
  intros Hbody. induction cs as [|c cs IH]; intros results s; cbn [for_each].
  - unfold ret, in_front. cbn. now rewrite app_nil_r.
  - unfold bind. rewrite (Hbody c results s).
    destruct (body c [] s) as [[names s1]|]; [|reflexivity].
    cbn [option_map in_front fst snd].
    rewrite (IH (results ++ names)), (IH names). now rewrite in_front_in_front.
Qed.

Lemma DumpHierarchy_object_in_front (depth : nat) :
  forall object results s,
    DumpHierarchy_object depth fuel tk object results s
    = option_map (in_front results) (DumpHierarchy_object depth fuel tk object [] s).
Proof.
  induction depth as [|depth IH]; intros object results s; [reflexivity|].
  cbn [DumpHierarchy_object]. unfold bind.
  destruct (GetName fuel tk object s) as [[name s1]|]; [|reflexivity].
  rewrite (for_each_in_front _ _ IH (results ++ [name])).
  rewrite (for_each_in_front _ _ IH ([] ++ [name])).
  now rewrite in_front_in_front.
Qed.

Lemma for_each_appends (body : QObjectPtr -> list QString -> M (list QString))
    (cs : list QObjectPtr) :
  (forall c results s r s',
     body c results s = Some (r, s') ->
     exists names msgs, r = results ++ names /\ 1 <= length names /\ s' = logged msgs s) ->
  forall results s r s',
    for_each body cs results s = Some (r, s') ->
    exists names msgs,
      r = results ++ names /\ length cs <= length names /\ s' = logged msgs s.
Proof.
  intros Hbody. induction cs as [|c cs IH]; intros results s r s' H; cbn [for_each] in H.
  - injection H as <- <-. exists [], []. rewrite app_nil_r, logged_nil. cbn. auto.
  - unfold bind in H. destruct (body c results s) as [[r1 s1]|] eqn:Hc; [|discriminate].
    apply Hbody in Hc as (n1 & m1 & -> & Hlen1 & ->).
    apply IH in H as (n2 & m2 & -> & Hlen2 & ->).
    exists (n1 ++ n2), (m1 ++ m2).
    rewrite app_assoc, logged_logged, length_app. cbn [length]. repeat split. lia.
Qed.

Lemma DumpHierarchy_object_appends (depth : nat) :
  forall object results s r s',
    DumpHierarchy_object depth fuel tk object results s = Some (r, s') ->
    exists names msgs, r = results ++ names /\ 1 <= length names /\ s' = logged msgs s.
Proof.
  induction depth as [|depth IH]; intros object results s r s' H; [discriminate|].
  cbn [DumpHierarchy_object] in H. unfold bind in H.
  destruct (GetName fuel tk object s) as [[name s1]|] eqn:Hname; [|discriminate].
  apply GetName_logs in Hname as (m1 & ->).
  apply (for_each_appends _ _ IH) in H as (n2 & m2 & -> & _ & ->).
  exists (name :: n2), (m1 ++ m2).
  rewrite <- app_assoc, logged_logged. cbn. repeat split. lia.
Qed.

End DumpAppends.

(** X11.  [DumpHierarchy] only appends: the list it leaves is the list it
    was given followed by the names it adds, at least one for each
    top-level widget, and these names do not depend on what the list held
    before.  [ErrorMessage] is not touched. *)
Theorem DumpHierarchy_only_appends
    (tk : Toolkit) (fuel : nat) (results : list QString) (s : Process) :
  DumpHierarchy fuel tk results s
  = option_map (fun out => (results ++ fst out, snd out)) (DumpHierarchy fuel tk [] s)
  /\ (forall r s',
        DumpHierarchy fuel tk results s = Some (r, s') ->
        ErrorMessage s' = ErrorMessage s
        /\ exists names,
             r = results ++ names
             /\ length (topLevelWidgets tk) <= length names).
Proof.
  split.
  - unfold DumpHierarchy.
    apply for_each_in_front. intros c res s0. apply DumpHierarchy_object_in_front.
  - intros r s' H. unfold DumpHierarchy in H.
    apply (for_each_appends _ _ (DumpHierarchy_object_appends tk fuel fuel)) in H
      as (names & msgs & -> & Hlen & ->).
    split; [reflexivity|]. exists names. auto.
Qed.

(** The sample window with two children, dumped after a first entry. *)
Lemma DumpHierarchy_only_appends_witness :
  DumpHierarchy 2 Samples.pair_window ["first"%string] Samples.fresh
  = Some (["first"%string; "win"%string; "win/title"%string; "win/1QPushButton0"%string]%string, Samples.fresh)
  /\ ErrorMessage Samples.fresh = ErrorMessage Samples.fresh
  /\ exists names,
       ["first"%string; "win"%string; "win/title"%string; "win/1QPushButton0"%string]%string
       = ["first"%string] ++ names
       /\ length (topLevelWidgets Samples.pair_window) <= length names.
Proof.
  split.
  - exact (proj1 (DumpHierarchy_only_appends Samples.pair_window 2 ["first"%string]
                    Samples.fresh)).
  - exact (proj2 (DumpHierarchy_only_appends Samples.pair_window 2 ["first"%string]
                    Samples.fresh) _ _ eq_refl).
Defined.

(** ** Names that cannot resolve *)

Section NoMatch.

Variable tk : Toolkit.

Lemma found_among_empty (children : list QObjectPtr) :
  found_among tk children EmptyString = None.
Proof.
  unfold found_among.
  destruct (find (name_matches tk EmptyString) children) as [c|] eqn:Hfind;
    [|reflexivity].
  apply find_some in Hfind as [_ Hc]. now rewrite no_name_is_empty in Hc.
Qed.

Lemma descend_empty_segment (names : list QString) :
  In EmptyString names ->
  forall result lastObject,
    exists lastObject', descend tk names result lastObject = Some (None, lastObject').
Proof.
  induction names as [|seg rest IH]; intros Hin result lastObject; [contradiction|].
  cbn [descend]. rewrite scan_children_found_among.
  destruct Hin as [->|Hin].
  - rewrite found_among_empty, descend_from_null. eauto.
  - destruct (found_among tk _ seg); apply (IH Hin).
Qed.

End NoMatch.

(** X12.  A name with an empty segment, as in [a//b], [/a] or [a/], never
    resolves: no derived name and no name as unnamed is empty, so
    [GetObject] returns null for it whenever it returns. *)
Theorem empty_segment_never_resolves
    (tk : Toolkit) (fuel : nat) (Name : QString) (s s' : Process)
    (result : option QObjectPtr) :
  In EmptyString (split slash Name) ->
  GetObject fuel tk Name s = Some (result, s') ->
  result = None.
Proof.
  intros Hin Hget.
  destruct (isEmpty Name) eqn:Hempty.
  { unfold GetObject in Hget. rewrite Hempty in Hget. now injection Hget as <- _. }
  apply isEmpty_false in Hempty.
  assert (Happ : InternalGetName tk (instance tk) <> Name).
  { intros Heq. subst Name.
    rewrite (split_absent _ _ (InternalGetName_no_slash tk (instance tk))) in Hin.
    destruct Hin as [H|[]]. now apply InternalGetName_nonempty in H. }
  rewrite (GetObject_searched tk fuel Name s Hempty Happ) in Hget.
  pose proof (split_nonempty slash Name) as Hne.
  destruct (split slash Name) as [|first rest] eqn:Hsplit; [congruence|].
  cbn [hd tl] in Hget.
  destruct Hin as [->|Hin].
  - assert (Hnone : find (name_matches tk EmptyString) (topLevelWidgets tk) = None).
    { destruct (find _ _) as [c|] eqn:Hfind; [|reflexivity].
      apply find_some in Hfind as [_ Hc]. now rewrite no_name_is_empty in Hc. }
    rewrite Hnone, descend_from_null in Hget.
    now apply report_then_null_is_null in Hget.
  - destruct (descend_empty_segment tk rest Hin
                (find (name_matches tk first) (topLevelWidgets tk))
                (find (name_matches tk first) (topLevelWidgets tk)))
      as [lastObject HD].
    rewrite HD in Hget. now apply report_then_null_is_null in Hget.
Qed.

(** The name of the sample window followed by a '/'. *)
Lemma empty_segment_never_resolves_witness :
  option_map fst (GetObject 1 Samples.pair_window "win/"%string Samples.fresh) = Some None.
Proof.
  destruct (GetObject 1 Samples.pair_window "win/"%string Samples.fresh)
    as [[result s']|] eqn:Hget; [|discriminate Hget].
  cbn [option_map fst]. f_equal.
  apply (empty_segment_never_resolves Samples.pair_window 1 "win/"%string Samples.fresh s' result).
  - simpl. tauto.
  - exact Hget.
Defined.

(** X13.  When no top-level widget matches the first segment of a name
    that is not the name of the application, [GetObject] returns null,
    with any fuel, and the diagnostic is the empty line and the line with
    the name, and nothing more: there is no last object found, so no
    [Found up to] and no candidates.  Nothing is logged. *)
Theorem unknown_first_segment_gives_bare_diagnostic
    (tk : Toolkit) (fuel : nat) (Name : QString) (s : Process) :
  Name <> EmptyString ->
  InternalGetName tk (instance tk) <> Name ->
  find (name_matches tk (hd EmptyString (split slash Name))) (topLevelWidgets tk) = None ->
  GetObject fuel tk Name s
  = Some (None,
          {| ErrorMessage :=
               (newline ++ "Couldn't find object  `"%string ++ Name ++ "`"%string ++ newline)%string;
             criticalLog := criticalLog s |}).
Proof.
  intros Hname Happ Hnone.
  rewrite (GetObject_searched tk fuel Name s Hname Happ).
  rewrite Hnone, descend_from_null.
  unfold report_failure, bind, ret, clear_ErrorMessage, stream. cbn.
  reflexivity.
Qed.

(** A window that the sample does not have. *)
Lemma unknown_first_segment_gives_bare_diagnostic_witness :
  GetObject 0 Samples.pair_window "dialog/ok"%string Samples.fresh
  = Some (None,
          {| ErrorMessage :=
               (newline ++ "Couldn't find object  `"%string ++ "dialog/ok"%string ++ "`"%string ++ newline)%string;
             criticalLog := criticalLog Samples.fresh |}).
Proof.
  apply (unknown_first_segment_gives_bare_diagnostic
           Samples.pair_window 0 "dialog/ok"%string Samples.fresh).
  - discriminate.
  - discriminate.
  - reflexivity.
Defined.
